(** * math-game: the move engine of [src/components/math-game.tsx]

    A shallow embedding of the game logic of the [MathGame] component:
    the grid generator, the direction resolver, the cell-press handler
    with [performOperation], and the game-over effect.

    Modelling conventions.
    - A JavaScript [number] that holds a grid index or a counter is a [Z].
    - A [number] that holds a cell value, the running value or the score
      is modelled twice.  The engine proper ([State], [handleCellPress],
      [gameOverEffect], ...) carries it as an exact rational [Q], with
      [Math.floor x] as [Qfloor x] and [Math.round x] as
      [Qfloor (x + 1/2)]; it serves for all that depends on which cells
      are used, selected or adjacent and on the order of the values.
      [Binary64] repeats the handler and [performOperation] over the
      binary64 numbers of JavaScript (the kernel's primitive floats), with
      [Math.round] defined on the binary64 number itself; it serves for
      what depends on the rounding of the arithmetic.  The two agree while
      every intermediate result is a binary64 number; [two_models_part]
      is a game in which they differ in the last digit.
    - The operation names ['add'], ['subtract'], ['multiply'], ['divide']
      are the constructors of [Operation]; [null] is [None].
    - Reading a property of [undefined] or [null] throws; a computation
      that may throw returns a [result].
    - The six [useState] slots are the fields of [State].  A handler reads
      the state of the render it was created in and its setter calls are
      committed together, so a handler is a function from [State] to
      [result State]. *)

From Stdlib Require Import ZArith QArith Qround Lia Lqa Floats.
From stdpp Require Import base tactics option list strings pretty.

Local Open Scope Z_scope.

(** ** Exceptions *)

Inductive result (A : Type) : Type :=
  | Ok (a : A)
  | TypeError.
Arguments Ok {A} a.
Arguments TypeError {A}.

Definition rbind {A B : Type} (m : result A) (k : A → result B) : result B :=
  match m with
  | Ok a => k a
  | TypeError => TypeError
  end.

Notation "x ←r m ; k" := (rbind m (λ x, k))
  (at level 100, m at next level, k at level 200, right associativity,
   format "'[' x  ←r  m ;  '/' k ']'").

(** A handler that throws commits nothing: the state of the last render
    stays. *)
Definition commit {A : Type} (old : A) (r : result A) : A :=
  match r with
  | Ok new => new
  | TypeError => old
  end.

(** ** Data model *)

Record Cell : Type := mkCell {
  value : Q;
  used : bool;
  id : string;
}.

Abbreviation Grid := (list (list Cell)).

Definition GRID_SIZE : Z := 4.

Record Coord : Type := mkCoord { row : Z; col : Z }.

Inductive Operation : Type := add | subtract | multiply | divide.

Record State : Type := mkState {
  grid : Grid;
  currentValue : option Q;
  selectedCell : option Coord;
  score : Q;
  moves : Z;
  gameOver : bool;
}.

(** [a[i]] on a JavaScript array: [undefined] (here [None]) for an index
    that is negative or past the end. *)
Definition js_index {A : Type} (a : list A) (i : Z) : option A :=
  if i <? 0 then None else a !! Z.to_nat i.

(** [grid[r][c]] followed by a property read: throws when [grid[r]] is
    [undefined] (indexing [undefined]) and when [grid[r][c]] is
    [undefined] (reading its property). *)
Definition grid_at (g : Grid) (r c : Z) : result Cell :=
  match js_index g r with
  | None => TypeError
  | Some cells =>
      match js_index cells c with
      | None => TypeError
      | Some cell => Ok cell
      end
  end.

(** ** Direction resolver *)

Definition getDirection (fromRow fromCol toRow toCol : Z) : option Operation :=
  let rowDiff := toRow - fromRow in
  let colDiff := toCol - fromCol in
  if (1 <? Z.abs rowDiff) || (1 <? Z.abs colDiff) then None
  else if (rowDiff =? 0) && (colDiff =? 0) then None
  else if (rowDiff =? 0) && (colDiff =? 1) then Some add
  else if (rowDiff =? -1) && (colDiff =? 0) then Some add
  else if (rowDiff =? 0) && (colDiff =? -1) then Some subtract
  else if (rowDiff =? 1) && (colDiff =? 0) then Some subtract
  else if (rowDiff =? -1) && (colDiff =? 1) then Some multiply
  else if (rowDiff =? 1) && (colDiff =? 1) then Some multiply
  else if (rowDiff =? -1) && (colDiff =? -1) then Some divide
  else if (rowDiff =? 1) && (colDiff =? -1) then Some divide
  else None.

(** The resolver as the specification words it: adjacency is Chebyshev
    distance one, "up" is a smaller row index, "right" a larger column
    index. *)
Definition chebyshev (fromRow fromCol toRow toCol : Z) : Z :=
  Z.max (Z.abs (toRow - fromRow)) (Z.abs (toCol - fromCol)).

Definition resolve_spec (fromRow fromCol toRow toCol : Z) : option Operation :=
  if chebyshev fromRow fromCol toRow toCol =? 1 then
    let up := toRow <? fromRow in
    let down := fromRow <? toRow in
    let right := fromCol <? toCol in
    let left := toCol <? fromCol in
    if (right && negb up && negb down) || (up && negb left && negb right) then Some add
    else if (left && negb up && negb down) || (down && negb left && negb right) then Some subtract
    else if right then Some multiply
    else Some divide
  else None.

(** ** Grid generator *)

(** [Math.random] is a stream of draws: the [n]-th call returns
    [random n].  The generator threads the cell counter [id] and the
    number of draws made so far. *)
Definition GenState : Type := (Z * nat)%type.

Definition newCell (random : nat → Q) (i j : Z) (st : GenState) : Cell * GenState :=
  let '(counter, draws) := st in
  ({| value := (inject_Z (Qfloor (random draws * 9)) + 1)%Q;
      used := false;
      id := pretty i +:+ "-" +:+ pretty j +:+ "-" +:+ pretty counter |},
   (counter + 1, S draws)).

Definition generateRow (random : nat → Q) (i : Z) (st : GenState)
  : list Cell * GenState :=
  foldl (λ acc j,
           let '(cells, st) := acc in
           let '(cell, st') := newCell random i j st in
           (cells ++ [cell], st'))
        ([], st) (seqZ 0 GRID_SIZE).

Definition generateInitialGrid (random : nat → Q) : Grid :=
  fst (foldl (λ acc i,
                let '(rows, st) := acc in
                let '(cells, st') := generateRow random i st in
                (rows ++ [cells], st'))
             ([], (0, 0%nat)) (seqZ 0 GRID_SIZE)).

(** ** Move engine *)

(** The [useState] initialisers of the component. *)
Definition initialState (random : nat → Q) : State :=
  {| grid := generateInitialGrid random;
     currentValue := None;
     selectedCell := None;
     score := 0%Q;
     moves := 0;
     gameOver := false |}.

Definition resetGame (random : nat → Q) (s : State) : State :=
  {| grid := generateInitialGrid random;
     currentValue := None;
     selectedCell := None;
     score := 0%Q;
     moves := 0;
     gameOver := false |}.

(** [grid.map(r => r.map(c => ({ ...c })))] followed by
    [newGrid[r][c].used = true].  Both call sites have read [grid[r][c]]
    before, so the indices are in range there. *)
Definition mark_used (g : Grid) (r c : Z) : Grid :=
  alter (alter (λ cell, {| value := value cell; used := true; id := id cell |})
               (Z.to_nat c))
        (Z.to_nat r) g.

(** [a > b] on numbers. *)
Definition Qgt_bool (a b : Q) : bool := negb (Qle_bool a b).

(** [Math.round]. *)
Definition Math_round (x : Q) : Q := inject_Z (Qfloor (x + (1 # 2))).

Definition performOperation (s : State) (targetRow targetCol : Z)
    (operation : Operation) : result State :=
  match currentValue s, selectedCell s with
  | Some current, Some _ =>
      targetCell ←r grid_at (grid s) targetRow targetCol;
      if used targetCell then Ok s
      else
        let result :=
          match operation with
          | add => (current + value targetCell)%Q
          | subtract => (current - value targetCell)%Q
          | multiply => (current * value targetCell)%Q
          | divide =>
              let result :=
                if negb (Qeq_bool (value targetCell) 0)
                then (current / value targetCell)%Q
                else current in
              (Math_round (result * 100) / 100)%Q
          end in
        Ok {| grid := mark_used (grid s) targetRow targetCol;
              currentValue := Some result;
              selectedCell := Some (mkCoord targetRow targetCol);
              score := if Qgt_bool result (score s) then result else score s;
              moves := moves s + 1;
              gameOver := gameOver s |}
  | _, _ => Ok s
  end.

Definition handleCellPress (s : State) (row col : Z) : result State :=
  cell ←r grid_at (grid s) row col;
  if used cell || gameOver s then Ok s
  else
    match currentValue s with
    | None =>
        Ok {| grid := mark_used (grid s) row col;
              currentValue := Some (value cell);
              selectedCell := Some (mkCoord row col);
              score := score s;
              moves := moves s + 1;
              gameOver := gameOver s |}
    | Some _ =>
        match selectedCell s with
        | None => TypeError
        | Some (mkCoord selRow selCol) =>
            match getDirection selRow selCol row col with
            | Some operation => performOperation s row col operation
            | None => Ok s
            end
        end
    end.

(** ** The handler over binary64 numbers *)

Module Binary64.

Record Cell : Type := mkCell {
  value : float;
  used : bool;
  id : string;
}.

Record State : Type := mkState {
  grid : list (list Cell);
  currentValue : option float;
  selectedCell : option Coord;
  score : float;
  moves : Z;
  gameOver : bool;
}.

Definition grid_at (g : list (list Cell)) (r c : Z) : result Cell :=
  match js_index g r with
  | None => TypeError
  | Some cells =>
      match js_index cells c with
      | None => TypeError
      | Some cell => Ok cell
      end
  end.

Definition mark_used (g : list (list Cell)) (r c : Z) : list (list Cell) :=
  alter (alter (λ cell, {| value := value cell; used := true; id := id cell |})
               (Z.to_nat c))
        (Z.to_nat r) g.

(** The binary64 number of an integer (exact below [2 ^ 53]). *)
Definition Z2float (k : Z) : float :=
  SF2Prim (binary_normalize prec emax k 0 false).

(** The integer nearest to [(-1) ^ s * m * 2 ^ e] for a negative [e], a
    tie going up: the floor of that number plus one half. *)
Definition round_half_up (s : bool) (m : positive) (e : Z) : Z :=
  let n := if s then Z.neg m else Z.pos m in
  (2 * n + 2 ^ (- e)) / 2 ^ (1 - e).

(** [Math.round] of ECMAScript: a number that is not finite, a zero and
    an integer are returned as they are; any other number goes to the
    nearest integer, a tie going towards plus infinity, and a result of
    zero keeps the sign of the argument. *)
Definition Math_round (x : float) : float :=
  match Prim2SF x with
  | S754_finite s m e =>
      if 0 <=? e then x
      else
        let k := round_half_up s m e in
        if k =? 0 then (if s then neg_zero else zero) else Z2float k
  | _ => x
  end.

Definition performOperation (s : State) (targetRow targetCol : Z)
    (operation : Operation) : result State :=
  match currentValue s, selectedCell s with
  | Some current, Some _ =>
      targetCell ←r grid_at (grid s) targetRow targetCol;
      if used targetCell then Ok s
      else
        let result :=
          match operation with
          | add => (current + value targetCell)%float
          | subtract => (current - value targetCell)%float
          | multiply => (current * value targetCell)%float
          | divide =>
              let result :=
                if negb (PrimFloat.eqb (value targetCell) 0)
                then (current / value targetCell)%float
                else current in
              (Math_round (result * 100) / 100)%float
          end in
        Ok {| grid := mark_used (grid s) targetRow targetCol;
              currentValue := Some result;
              selectedCell := Some (mkCoord targetRow targetCol);
              score := if PrimFloat.ltb (score s) result then result else score s;
              moves := moves s + 1;
              gameOver := gameOver s |}
  | _, _ => Ok s
  end.

Definition handleCellPress (s : State) (row col : Z) : result State :=
  cell ←r grid_at (grid s) row col;
  if used cell || gameOver s then Ok s
  else
    match currentValue s with
    | None =>
        Ok {| grid := mark_used (grid s) row col;
              currentValue := Some (value cell);
              selectedCell := Some (mkCoord row col);
              score := score s;
              moves := moves s + 1;
              gameOver := gameOver s |}
    | Some _ =>
        match selectedCell s with
        | None => TypeError
        | Some (mkCoord selRow selCol) =>
            match getDirection selRow selCol row col with
            | Some operation => performOperation s row col operation
            | None => Ok s
            end
        end
    end.

(** The handler of one tap with its updates committed.  The game-over
    effect, which reads no number, is not repeated in this module. *)
Definition press (s : State) (tap : Z * Z) : State :=
  commit s (handleCellPress s tap.1 tap.2).

(** [k] is the integer nearest to [v], a tie going up. *)
Definition nearest_ties_up (v : Q) (k : Z) : Prop :=
  (v - (1 # 2) < inject_Z k)%Q ∧ (inject_Z k <= v + (1 # 2))%Q.

(** The rational [(-1) ^ s * m * 2 ^ e] for a negative [e]. *)
Definition fraction_value (s : bool) (m : positive) (e : Z) : Q :=
  (if s then Z.neg m else Z.pos m) # Z.to_pos (2 ^ (- e)).

(** [r] is [p] rounded to an integer as the specification of
    [Math.round] words it. *)
Definition rounds_to_integer (p r : float) : Prop :=
  match Prim2SF p with
  | S754_finite s m e =>
      if 0 <=? e then r = p
      else ∃ k : Z,
             nearest_ties_up (fraction_value s m e) k
             ∧ r = if k =? 0 then (if s then neg_zero else zero) else Z2float k
  | _ => r = p
  end.

End Binary64.

(** ** Terminal detector: the game-over effect *)

Definition availableCells (g : Grid) : Z :=
  Z.of_nat (length (List.filter (λ c, negb (used c)) (concat g))).

(** The inner loop over [c]; [Ok true] is the [break] with
    [hasAvailableMoves] set. *)
Fixpoint scanCols (g : Grid) (row col r : Z) (cs : list Z) : result bool :=
  match cs with
  | [] => Ok false
  | c :: cs' =>
      if (0 <=? r) && (r <? GRID_SIZE) && (0 <=? c) && (c <? GRID_SIZE) then
        cell ←r grid_at g r c;
        if negb (used cell) && negb ((r =? row) && (c =? col)) then Ok true
        else scanCols g row col r cs'
      else scanCols g row col r cs'
  end.

(** The outer loop over [r]. *)
Fixpoint scanRows (g : Grid) (row col : Z) (rs : list Z) : result bool :=
  match rs with
  | [] => Ok false
  | r :: rs' =>
      found ←r scanCols g row col r [col - 1; col; col + 1];
      if found then Ok true else scanRows g row col rs'
  end.

Definition hasAvailableMoves (g : Grid) (row col : Z) : result bool :=
  scanRows g row col [row - 1; row; row + 1].

Definition gameOverEffect (s : State) : result State :=
  match selectedCell s, currentValue s with
  | Some (mkCoord row col), Some _ =>
      if gameOver s then Ok s
      else
        found ←r hasAvailableMoves (grid s) row col;
        if (availableCells (grid s) =? 0) || negb found then
          Ok {| grid := grid s;
                currentValue := currentValue s;
                selectedCell := selectedCell s;
                score := score s;
                moves := moves s;
                gameOver := true |}
        else Ok s
  | _, _ => Ok s
  end.

(** [usedCells] of the game-over screen. *)
Definition usedCells (g : Grid) : nat :=
  length (List.filter used (concat g)).

(** ** Events *)

(** One tap: the handler runs, its updates are committed, the component
    renders again and the effect runs on the new state. *)
Definition onCellTapped (s : State) (row col : Z) : State :=
  let s1 := commit s (handleCellPress s row col) in
  commit s1 (gameOverEffect s1).

Inductive Event : Type :=
  | CellTapped (row col : Z)
  | ResetRequested (random : nat → Q).

Definition dispatch (s : State) (e : Event) : State :=
  match e with
  | CellTapped row col => onCellTapped s row col
  | ResetRequested random => resetGame random s
  end.

Definition run (s : State) (events : list Event) : State :=
  foldl dispatch s events.

(** The states of the component: a mounted game after any events. *)
Definition reachable (s : State) : Prop :=
  ∃ random events, s = run (initialState random) events.

(** A session: taps only, no reset. *)
Definition play (s : State) (taps : list (Z * Z)) : State :=
  foldl (λ s t, onCellTapped s t.1 t.2) s taps.

(** ** The grid view *)

(** The presses the grid view offers: it draws one [Pressable] per cell,
    whose [onPress] calls [handleCellPress] with the indices of the two
    [map] calls. *)
Definition pressables (g : Grid) : list (Z * Z) :=
  concat (imap (λ rowIndex cells,
                  imap (λ colIndex _, (Z.of_nat rowIndex, Z.of_nat colIndex)) cells)
               g).

(** ** Derived queries of the view *)

Definition getAvailableCells (s : State) : Z := availableCells (grid s).

(** An entry of the list [getAvailableMoves] builds. *)
Module Move.
Record t : Type := mk { row : Z; col : Z; operation : Operation }.
End Move.

(** The inner loop of [getAvailableMoves] over [c]; [acc] is the array
    [moves] so far. *)
Fixpoint movesCols (g : Grid) (row col r : Z) (cs : list Z) (acc : list Move.t)
  : result (list Move.t) :=
  match cs with
  | [] => Ok acc
  | c :: cs' =>
      if (0 <=? r) && (r <? GRID_SIZE) && (0 <=? c) && (c <? GRID_SIZE) then
        cell ←r grid_at g r c;
        if negb (used cell) && negb ((r =? row) && (c =? col)) then
          match getDirection row col r c with
          | Some operation =>
              movesCols g row col r cs' (acc ++ [Move.mk r c operation])
          | None => movesCols g row col r cs' acc
          end
        else movesCols g row col r cs' acc
      else movesCols g row col r cs' acc
  end.

(** The outer loop over [r]. *)
Fixpoint movesRows (g : Grid) (row col : Z) (rs : list Z) (acc : list Move.t)
  : result (list Move.t) :=
  match rs with
  | [] => Ok acc
  | r :: rs' =>
      acc' ←r movesCols g row col r [col - 1; col; col + 1] acc;
      movesRows g row col rs' acc'
  end.

Definition getAvailableMoves (s : State) : result (list Move.t) :=
  match selectedCell s with
  | None => Ok []
  | Some (mkCoord row col) =>
      movesRows (grid s) row col [row - 1; row; row + 1] []
  end.

Definition isAvailableMove (s : State) (row col : Z) : result bool :=
  match selectedCell s with
  | None => Ok false
  | Some _ =>
      available ←r getAvailableMoves s;
      Ok (existsb (λ move, (Move.row move =? row) && (Move.col move =? col))
                  available)
  end.

Definition getOperationForCell (s : State) (row col : Z)
  : result (option Operation) :=
  match selectedCell s with
  | None => Ok None
  | Some _ =>
      available ←r getAvailableMoves s;
      Ok (Move.operation
            <$> List.find (λ m, (Move.row m =? row) && (Move.col m =? col))
                          available)
  end.

(** [isSelected] of the grid view. *)
Definition isSelected (s : State) (rowIndex colIndex : Z) : bool :=
  match selectedCell s with
  | Some (mkCoord selRow selCol) => (selRow =? rowIndex) && (selCol =? colIndex)
  | None => false
  end.

(** [allUsed] of the game-over screen. *)
Definition allUsed (g : Grid) : bool :=
  Z.of_nat (usedCells g) =? GRID_SIZE * GRID_SIZE.

(** ** Predicates used in the statements *)

Definition in_bounds (r c : Z) : Prop :=
  0 <= r < GRID_SIZE ∧ 0 <= c < GRID_SIZE.

(** A [GRID_SIZE] by [GRID_SIZE] matrix. *)
Definition grid_shape (g : Grid) : Prop :=
  length g = Z.to_nat GRID_SIZE
  ∧ Forall (λ cells, length cells = Z.to_nat GRID_SIZE) g.

Definition all_used (g : Grid) : Prop :=
  Forall (λ cell, used cell = true) (concat g).

(** [(r, c)] is an in-bounds neighbour of [(row, col)], other than
    [(row, col)] itself, whose cell is unused. *)
Definition unused_neighbour (g : Grid) (row col r c : Z) : Prop :=
  Z.abs (r - row) <= 1 ∧ Z.abs (c - col) <= 1
  ∧ ¬ (r = row ∧ c = col)
  ∧ in_bounds r c
  ∧ ∃ cell, grid_at g r c = Ok cell ∧ used cell = false.

(** The terminal condition of the specification for a selection at
    [(row, col)]. *)
Definition terminal (g : Grid) (row col : Z) : Prop :=
  all_used g ∨ ¬ ∃ r c, unused_neighbour g row col r c.







(** What the scan of the effect looks for at [(r, c)]. *)
Definition scan_hit (g : Grid) (row col r c : Z) : Prop :=
  in_bounds r c ∧ ¬ (r = row ∧ c = col)
  ∧ ∃ cell, grid_at g r c = Ok cell ∧ used cell = false.

(** What holds of every state of the component. *)
Record invariant (s : State) : Prop := mkInvariant {
  inv_shape : grid_shape (grid s);
  inv_coupled : currentValue s = None ↔ selectedCell s = None;
  inv_selected :
    ∀ r c, selectedCell s = Some (mkCoord r c) →
           in_bounds r c ∧ ∃ cell, grid_at (grid s) r c = Ok cell ∧ used cell = true;
  inv_moves : moves s = Z.of_nat (usedCells (grid s));
  inv_gameOver :
    gameOver s = true ↔
    ∃ r c, selectedCell s = Some (mkCoord r c) ∧ terminal (grid s) r c;
}.

(** The cell the generator puts at [(i, j)]: the draw and the counter are
    both number [GRID_SIZE * i + j]. *)
Definition cellAt (random : nat → Q) (i j : Z) : Cell :=
  {| value := (inject_Z (Qfloor (random (Z.to_nat (GRID_SIZE * i + j)) * 9)) + 1)%Q;
     used := false;
     id := pretty i +:+ "-" +:+ pretty j +:+ "-" +:+ pretty (GRID_SIZE * i + j) |}.

(** The operation that undoes a direction's operation. *)
Definition inverseOperation (operation : Operation) : Operation :=
  match operation with
  | add => subtract
  | subtract => add
  | multiply => divide
  | divide => multiply
  end.

(** The [switch] of [performOperation] on its own: the new running value
    for an operation, the running value and the value of the target. *)
Definition applyOperation (operation : Operation) (current target : Q) : Q :=
  match operation with
  | add => (current + target)%Q
  | subtract => (current - target)%Q
  | multiply => (current * target)%Q
  | divide =>
      (Math_round ((if negb (Qeq_bool target 0) then current / target else current)
                   * 100) / 100)%Q
  end.

(** A move that [getAvailableMoves] should list for a selection at
    [(row, col)]: an unused neighbour with the operation of its
    direction. *)
Definition legal_move (g : Grid) (row col : Z) (m : Move.t) : Prop :=
  unused_neighbour g row col (Move.row m) (Move.col m)
  ∧ getDirection row col (Move.row m) (Move.col m) = Some (Move.operation m).

(** ** Sample data *)

(** A stream of draws that yields the values 1, 2, ..., 9, 1, 2, ... *)
Definition sample_random (n : nat) : Q := Z.of_nat (n mod 9) # 9.

(** The grid
    [[1 2 3 4] [5 6 7 8] [9 1 2 3] [4 5 6 7]], nothing selected. *)
Definition sample_state : State := initialState sample_random.

(** A stream outside the contract of [Math.random]: its first draw is
    negative, which puts a 0 at [(0, 0)]; the other cells are those of
    [sample_random]. *)
Definition zero_corner_random (n : nat) : Q :=
  match n with
  | O => - 1 # 9
  | S _ => sample_random n
  end.

(** The sample grid over binary64 numbers. *)
Definition binary64_sample_state : Binary64.State :=
  let cell v i := Binary64.mkCell v false i in
  {| Binary64.grid :=
       [[cell 1%float "0-0-0"; cell 2%float "0-1-1";
         cell 3%float "0-2-2"; cell 4%float "0-3-3"];
        [cell 5%float "1-0-4"; cell 6%float "1-1-5";
         cell 7%float "1-2-6"; cell 8%float "1-3-7"];
        [cell 9%float "2-0-8"; cell 1%float "2-1-9";
         cell 2%float "2-2-10"; cell 3%float "2-3-11"];
        [cell 4%float "3-0-12"; cell 5%float "3-1-13";
         cell 6%float "3-2-14"; cell 7%float "3-3-15"]];
     Binary64.currentValue := None;
     Binary64.selectedCell := None;
     Binary64.score := 0%float;
     Binary64.moves := 0;
     Binary64.gameOver := false |}.

(** * Properties *)

Example getDirection_right : getDirection 2 2 2 3 = Some add.
Proof. reflexivity. Qed.
Example getDirection_up : getDirection 2 2 1 2 = Some add.
Proof. reflexivity. Qed.
Example getDirection_down_left : getDirection 2 2 3 1 = Some divide.
Proof. reflexivity. Qed.
Example getDirection_far : getDirection 0 0 2 1 = None.
Proof. reflexivity. Qed.

Lemma ltb_as_diff_neg (a b : Z) : (a <? b) = (a - b <? 0).
Proof. destruct (Z.ltb_spec a b), (Z.ltb_spec (a - b) 0); (reflexivity || lia). Qed.

Lemma ltb_as_diff_pos (a b : Z) : (a <? b) = (0 <? b - a).
Proof. destruct (Z.ltb_spec a b), (Z.ltb_spec 0 (b - a)); (reflexivity || lia). Qed.

Lemma near_cases (d : Z) : Z.abs d <= 1 → d = -1 ∨ d = 0 ∨ d = 1.
Proof. lia. Qed.

Lemma getDirection_resolve_spec fromRow fromCol toRow toCol :
  getDirection fromRow fromCol toRow toCol
  = resolve_spec fromRow fromCol toRow toCol.
Proof.
  unfold getDirection, resolve_spec, chebyshev.
  rewrite (ltb_as_diff_neg toRow fromRow), (ltb_as_diff_pos fromRow toRow),
    (ltb_as_diff_pos fromCol toCol), (ltb_as_diff_neg toCol fromCol).
  generalize (toRow - fromRow) (toCol - fromCol); intros dr dc.
  destruct (Z.ltb_spec 1 (Z.abs dr)) as [Hr|Hr]; simpl.
  { destruct (Z.eqb_spec (Z.max (Z.abs dr) (Z.abs dc)) 1); [lia | reflexivity]. }
  destruct (Z.ltb_spec 1 (Z.abs dc)) as [Hc|Hc]; simpl.
  { destruct (Z.eqb_spec (Z.max (Z.abs dr) (Z.abs dc)) 1); [lia | reflexivity]. }
  destruct (near_cases dr Hr) as [-> | [-> | ->]],
    (near_cases dc Hc) as [-> | [-> | ->]]; reflexivity.
Qed.

(** ** C1: the direction resolver *)

(** C1.  [getDirection] is a total function of the two coordinates (it is
    a Rocq function, so every pair has exactly one result).  It returns
    [None] exactly when the target is not one of the eight neighbours of
    the source (Chebyshev distance other than one, or equal coordinates);
    otherwise [add] for the right or the up neighbour, [subtract] for the
    left or the down neighbour, [multiply] for the up-right or down-right
    neighbour and [divide] for the up-left or down-left neighbour, where
    up is a row index smaller by one and right a column index larger by
    one. *)
Theorem getDirection_characterisation (fromRow fromCol toRow toCol : Z) :
  let rowDiff := toRow - fromRow in
  let colDiff := toCol - fromCol in
  (getDirection fromRow fromCol toRow toCol = None
     ↔ chebyshev fromRow fromCol toRow toCol ≠ 1
       ∨ (rowDiff = 0 ∧ colDiff = 0))
  ∧ (getDirection fromRow fromCol toRow toCol = Some add
     ↔ (rowDiff = 0 ∧ colDiff = 1) ∨ (rowDiff = -1 ∧ colDiff = 0))
  ∧ (getDirection fromRow fromCol toRow toCol = Some subtract
     ↔ (rowDiff = 0 ∧ colDiff = -1) ∨ (rowDiff = 1 ∧ colDiff = 0))
  ∧ (getDirection fromRow fromCol toRow toCol = Some multiply
     ↔ (rowDiff = -1 ∧ colDiff = 1) ∨ (rowDiff = 1 ∧ colDiff = 1))
  ∧ (getDirection fromRow fromCol toRow toCol = Some divide
     ↔ (rowDiff = -1 ∧ colDiff = -1) ∨ (rowDiff = 1 ∧ colDiff = -1)).
Proof.
  unfold getDirection, chebyshev.
  generalize (toRow - fromRow) (toCol - fromCol); intros dr dc; cbv zeta.
  destruct (Z.ltb_spec 1 (Z.abs dr)) as [Hr|Hr]; simpl.
  { repeat split; intros; (discriminate || lia). }
  destruct (Z.ltb_spec 1 (Z.abs dc)) as [Hc|Hc]; simpl.
  { repeat split; intros; (discriminate || lia). }
  destruct (near_cases dr Hr) as [-> | [-> | ->]],
    (near_cases dc Hc) as [-> | [-> | ->]]; simpl;
    repeat split; intros; (discriminate || lia || (try reflexivity)).
Qed.

(** ** Array access and the copy-and-mark update *)

Lemma js_index_Some {A} (a : list A) (i : Z) (x : A) :
  js_index a i = Some x ↔ 0 <= i ∧ a !! Z.to_nat i = Some x.
Proof.
  unfold js_index. destruct (Z.ltb_spec i 0); split.
  - discriminate.
  - intros [? _]; lia.
  - intros; split; [lia | assumption].
  - intros [_ ?]; assumption.
Qed.

Lemma js_index_in_range {A} (a : list A) (i : Z) :
  0 <= i < Z.of_nat (length a) → ∃ x, js_index a i = Some x.
Proof.
  intros Hi. destruct (lookup_lt_is_Some_2 a (Z.to_nat i)) as [x Hx]; [lia|].
  exists x. apply js_index_Some. split; [lia | assumption].
Qed.

Lemma js_index_out_of_range {A} (a : list A) (i : Z) :
  ¬ (0 <= i < Z.of_nat (length a)) → js_index a i = None.
Proof.
  intros Hi. destruct (js_index a i) as [x|] eqn:E; [|reflexivity].
  apply js_index_Some in E as [? E]. apply lookup_lt_Some in E. lia.
Qed.

Lemma grid_at_Ok (g : Grid) (r c : Z) (cell : Cell) :
  grid_at g r c = Ok cell ↔
  0 <= r ∧ 0 <= c
  ∧ ∃ cells, g !! Z.to_nat r = Some cells ∧ cells !! Z.to_nat c = Some cell.
Proof.
  unfold grid_at. split.
  - destruct (js_index g r) as [cells|] eqn:Er; [|discriminate].
    destruct (js_index cells c) as [x|] eqn:Ec; [|discriminate].
    intros [= ->]. apply js_index_Some in Er as [? ?], Ec as [? ?]. eauto.
  - intros (Hr & Hc & cells & Er & Ec).
    rewrite (proj2 (js_index_Some g r cells)) by auto.
    rewrite (proj2 (js_index_Some cells c cell)) by auto. reflexivity.
Qed.

Lemma grid_at_in_bounds (g : Grid) (r c : Z) :
  grid_shape g → in_bounds r c → ∃ cell, grid_at g r c = Ok cell.
Proof.
  intros [Hlen Hrows] [Hr Hc]. unfold GRID_SIZE in *.
  destruct (lookup_lt_is_Some_2 g (Z.to_nat r)) as [cells Hcells]; [lia|].
  assert (length cells = Z.to_nat 4) as Hl.
  { eapply Forall_lookup_1 in Hrows; eauto. }
  destruct (lookup_lt_is_Some_2 cells (Z.to_nat c)) as [cell Hcell]; [lia|].
  exists cell. apply grid_at_Ok. split_and!; [lia | lia | eauto].
Qed.

Lemma grid_at_out_of_bounds (g : Grid) (r c : Z) :
  grid_shape g → ¬ in_bounds r c → grid_at g r c = TypeError.
Proof.
  intros [Hlen Hrows] Hout.
  destruct (grid_at g r c) as [cell|] eqn:E; [|reflexivity].
  apply grid_at_Ok in E as (Hr & Hc & cells & Er & Ec).
  assert (length cells = Z.to_nat GRID_SIZE) as Hl.
  { eapply Forall_lookup_1 in Hrows; eauto. }
  apply lookup_lt_Some in Er, Ec. unfold in_bounds, GRID_SIZE in *. lia.
Qed.

Lemma grid_shape_mark_used (g : Grid) (r c : Z) :
  grid_shape g → grid_shape (mark_used g r c).
Proof.
  intros [Hlen Hrows]. unfold mark_used. split.
  - rewrite length_alter. assumption.
  - apply Forall_lookup_2. intros i cells Hi.
    destruct (decide (Z.to_nat r = i)) as [<-|Hne].
    + rewrite list_lookup_alter_eq in Hi.
      destruct (g !! Z.to_nat r) as [cells0|] eqn:E; [|discriminate].
      injection Hi as <-. rewrite length_alter.
      eapply Forall_lookup_1 in Hrows; eauto.
    + rewrite list_lookup_alter_ne in Hi by assumption.
      eapply Forall_lookup_1 in Hrows; eauto.
Qed.

Lemma grid_at_mark_used_eq (g : Grid) (r c : Z) (cell : Cell) :
  grid_at g r c = Ok cell →
  grid_at (mark_used g r c) r c
  = Ok {| value := value cell; used := true; id := id cell |}.
Proof.
  intros (Hr & Hc & cells & Er & Ec)%grid_at_Ok.
  apply grid_at_Ok. split_and!; [assumption..|].
  eexists. unfold mark_used. split.
  - rewrite list_lookup_alter_eq, Er. reflexivity.
  - rewrite list_lookup_alter_eq, Ec. reflexivity.
Qed.

Lemma grid_at_mark_used_ne (g : Grid) (r c r' c' : Z) :
  0 <= r → 0 <= c → ¬ (r' = r ∧ c' = c) →
  grid_at (mark_used g r c) r' c' = grid_at g r' c'.
Proof.
  intros Hr Hc Hne. unfold grid_at, js_index, mark_used.
  destruct (Z.ltb_spec r' 0); [reflexivity|].
  destruct (decide (Z.to_nat r = Z.to_nat r')) as [Heq|Hneq].
  - rewrite <- Heq, list_lookup_alter_eq.
    destruct (g !! Z.to_nat r) as [cells|]; [simpl|reflexivity].
    destruct (Z.ltb_spec c' 0); [reflexivity|].
    rewrite list_lookup_alter_ne by lia. reflexivity.
  - rewrite list_lookup_alter_ne by assumption. reflexivity.
Qed.

(** ** Counting cells *)

Lemma used_count_alter (cells : list Cell) (j : nat) (cell : Cell) :
  cells !! j = Some cell → used cell = false →
  length (List.filter used
            (alter (λ cell, {| value := value cell; used := true; id := id cell |})
                   j cells))
  = S (length (List.filter used cells)).
Proof.
  revert j. induction cells as [|x cells IH]; intros [|j] Hj Hu; try discriminate.
  - injection Hj as ->. simpl. rewrite Hu. reflexivity.
  - specialize (IH j Hj Hu). unfold alter in IH. simpl.
    destruct (used x); simpl; rewrite IH; reflexivity.
Qed.

Lemma usedCells_mark_used (g : Grid) (r c : Z) (cell : Cell) :
  grid_at g r c = Ok cell → used cell = false →
  usedCells (mark_used g r c) = S (usedCells g).
Proof.
  intros (_ & _ & cells & Er & Ec)%grid_at_Ok Hu.
  unfold usedCells, mark_used. generalize dependent (Z.to_nat r). clear r.
  induction g as [|x g IH]; intros [|i] Hi; try discriminate; simpl in *.
  - injection Hi as ->.
    rewrite !List.filter_app, !length_app, (used_count_alter _ _ cell) by assumption.
    reflexivity.
  - rewrite !List.filter_app, !length_app, <- Nat.add_succ_r.
    f_equal. exact (IH i Hi).
Qed.

Lemma no_unused_all_used (cells : list Cell) :
  length (List.filter (λ c, negb (used c)) cells) = 0%nat
  ↔ Forall (λ cell, used cell = true) cells.
Proof.
  induction cells as [|x cells IH]; simpl.
  - split; [constructor | reflexivity].
  - destruct (used x) eqn:E; simpl.
    + rewrite IH. split; [by constructor | by inversion 1].
    + split; [discriminate | inversion 1; congruence].
Qed.

Lemma availableCells_zero (g : Grid) : (availableCells g =? 0) = true ↔ all_used g.
Proof.
  unfold availableCells, all_used. rewrite <- no_unused_all_used, Z.eqb_eq. lia.
Qed.

(** ** C2: rejected moves *)

(** C2.  In a state with an active selection (a running value and a
    selected cell), when the direction resolver returns [None] for the
    pair (selected cell, target), or the target cell is already used, or
    the game is over, a press on the target leaves the whole state as it
    is: grid, running value, selection, score, move count and game-over
    flag.  For a target that is a cell of the grid the handler returns
    normally with that same state: nothing is thrown. *)
Theorem rejected_move_unchanged (s : State) (targetRow targetCol : Z)
    (current : Q) (selected : Coord) :
  currentValue s = Some current →
  selectedCell s = Some selected →
  getDirection (row selected) (col selected) targetRow targetCol = None
    ∨ (∃ target, grid_at (grid s) targetRow targetCol = Ok target
                 ∧ used target = true)
    ∨ gameOver s = true →
  commit s (handleCellPress s targetRow targetCol) = s
  ∧ (∀ target, grid_at (grid s) targetRow targetCol = Ok target →
               handleCellPress s targetRow targetCol = Ok s).
Proof.
  intros Hcur Hsel Hrej.
  assert (∀ target, grid_at (grid s) targetRow targetCol = Ok target →
                    handleCellPress s targetRow targetCol = Ok s) as Hin.
  { intros target Hat. unfold handleCellPress. rewrite Hat; simpl.
    destruct (used target) eqn:Hu; [reflexivity|].
    destruct (gameOver s) eqn:Hg; [reflexivity|]. simpl.
    rewrite Hcur, Hsel. destruct selected as [selRow selCol]; simpl in *.
    destruct Hrej as [-> | [(target' & Hat' & Hu') | ?]];
      [reflexivity | congruence | discriminate]. }
  split; [|exact Hin].
  destruct (grid_at (grid s) targetRow targetCol) as [target|] eqn:Hat.
  - by rewrite (Hin target).
  - unfold handleCellPress. rewrite Hat. reflexivity.
Qed.

Lemma rejected_move_unchanged_witness :
  handleCellPress (play sample_state [(1, 1)]) 3 3 = Ok (play sample_state [(1, 1)])
  ∧ handleCellPress (play sample_state [(1, 1)]) 1 1 = Ok (play sample_state [(1, 1)]).
Proof.
  split.
  - eapply (rejected_move_unchanged (play sample_state [(1, 1)]) 3 3);
      [reflexivity | reflexivity | left; reflexivity | reflexivity].
  - eapply (rejected_move_unchanged (play sample_state [(1, 1)]) 1 1);
      [reflexivity | reflexivity | | reflexivity].
    right; left. eexists. split; reflexivity.
Defined.

(** ** The game-over effect *)

Lemma scanCols_spec (g : Grid) (row col r : Z) (cs : list Z) :
  grid_shape g →
  ∃ found, scanCols g row col r cs = Ok found
           ∧ (found = true ↔ ∃ c, c ∈ cs ∧ scan_hit g row col r c).
Proof.
  intros Hshape. induction cs as [|c cs (found & IH & Hfound)]; simpl.
  { exists false. split; [reflexivity|]. split; [discriminate|].
    intros (c & Hc & _). by apply elem_of_nil in Hc. }
  destruct ((0 <=? r) && (r <? GRID_SIZE) && (0 <=? c) && (c <? GRID_SIZE)) eqn:Hb.
  - assert (in_bounds r c) as Hin.
    { unfold in_bounds. apply andb_prop in Hb as [[[?%Z.leb_le ?%Z.ltb_lt]%andb_prop
        ?%Z.leb_le]%andb_prop ?%Z.ltb_lt]. lia. }
    destruct (grid_at_in_bounds g r c Hshape Hin) as [cell Hcell].
    rewrite Hcell; simpl.
    destruct (negb (used cell) && negb ((r =? row) && (c =? col))) eqn:Hhit.
    + exists true. split; [reflexivity|]. split; [|reflexivity]. intros _.
      exists c. split; [left|]. split; [assumption|].
      apply andb_prop in Hhit as [Hu Hne]. split.
      * intros [-> ->]. rewrite !Z.eqb_refl in Hne. discriminate.
      * exists cell. split; [assumption|]. by destruct (used cell).
    + exists found. split; [assumption|]. rewrite Hfound. split.
      * intros (c' & Hc' & Hhit'). exists c'. split; [by right | assumption].
      * intros (c' & Hc' & Hhit'). apply elem_of_cons in Hc' as [-> | Hc'].
        -- exfalso. destruct Hhit' as (_ & Hne & cell' & Hcell' & Hu').
           rewrite Hcell in Hcell'. injection Hcell' as <-.
           rewrite Hu' in Hhit. simpl in Hhit.
           apply negb_false_iff, andb_prop in Hhit as [?%Z.eqb_eq ?%Z.eqb_eq].
           tauto.
        -- exists c'. tauto.
  - exists found. split; [assumption|]. rewrite Hfound. split.
    + intros (c' & Hc' & Hhit'). exists c'. split; [by right | assumption].
    + intros (c' & Hc' & Hhit'). apply elem_of_cons in Hc' as [-> | Hc'].
      * exfalso. destruct Hhit' as ([? ?] & _). unfold GRID_SIZE in *.
        apply andb_false_iff in Hb as [Hb | ?%Z.ltb_ge]; [|lia].
        apply andb_false_iff in Hb as [Hb | ?%Z.leb_gt]; [|lia].
        apply andb_false_iff in Hb as [?%Z.leb_gt | ?%Z.ltb_ge]; lia.
      * exists c'. tauto.
Qed.

Lemma scanRows_spec (g : Grid) (row col : Z) (rs : list Z) :
  grid_shape g →
  ∃ found, scanRows g row col rs = Ok found
           ∧ (found = true ↔
              ∃ r c, r ∈ rs ∧ c ∈ [col - 1; col; col + 1] ∧ scan_hit g row col r c).
Proof.
  intros Hshape. induction rs as [|r rs (found & IH & Hfound)]; cbn [scanRows].
  { exists false. split; [reflexivity|]. split; [discriminate|].
    intros (r & c & Hr & _). by apply elem_of_nil in Hr. }
  destruct (scanCols_spec g row col r [col - 1; col; col + 1] Hshape)
    as (here & -> & Hhere); simpl.
  destruct here.
  - exists true. split; [reflexivity|]. split; [|reflexivity]. intros _.
    destruct (proj1 Hhere eq_refl) as (c & Hc & Hhit).
    exists r, c. split; [left | by split].
  - exists found. split; [assumption|]. rewrite Hfound. split.
    + intros (r' & c & Hr' & Hc & Hhit). exists r', c. split; [by right | by split].
    + intros (r' & c & Hr' & Hc & Hhit). apply elem_of_cons in Hr' as [-> | Hr'].
      * assert (false = true); [|discriminate]. apply Hhere. eauto.
      * eauto.
Qed.

Lemma window_elem (x centre : Z) :
  x ∈ [centre - 1; centre; centre + 1] ↔ Z.abs (x - centre) <= 1.
Proof.
  rewrite !elem_of_cons, elem_of_nil. lia.
Qed.

Lemma hasAvailableMoves_spec (g : Grid) (row col : Z) :
  grid_shape g →
  ∃ found, hasAvailableMoves g row col = Ok found
           ∧ (found = true ↔ ∃ r c, unused_neighbour g row col r c).
Proof.
  intros Hshape. unfold hasAvailableMoves.
  destruct (scanRows_spec g row col [row - 1; row; row + 1] Hshape)
    as (found & -> & Hfound).
  exists found. split; [reflexivity|]. rewrite Hfound.
  split; intros (r & c & H); exists r, c;
    unfold unused_neighbour, scan_hit in *; rewrite !window_elem in *; tauto.
Qed.

Lemma gameOverEffect_no_selection (s : State) :
  selectedCell s = None → gameOverEffect s = Ok s.
Proof. intros H. unfold gameOverEffect. rewrite H. reflexivity. Qed.

Lemma gameOverEffect_over (s : State) :
  gameOver s = true → gameOverEffect s = Ok s.
Proof.
  intros H. unfold gameOverEffect. rewrite H.
  destruct (selectedCell s) as [[? ?]|], (currentValue s); reflexivity.
Qed.

Lemma gameOverEffect_spec (s : State) (row col : Z) (current : Q) :
  grid_shape (grid s) →
  selectedCell s = Some (mkCoord row col) →
  currentValue s = Some current →
  gameOver s = false →
  ∃ s', gameOverEffect s = Ok s'
        ∧ grid s' = grid s ∧ currentValue s' = currentValue s
        ∧ selectedCell s' = selectedCell s ∧ score s' = score s
        ∧ moves s' = moves s
        ∧ (gameOver s' = true ↔ terminal (grid s) row col).
Proof.
  intros Hshape Hsel Hcur Hover. unfold gameOverEffect.
  rewrite Hsel, Hcur, Hover.
  destruct (hasAvailableMoves_spec (grid s) row col Hshape) as (found & -> & Hfound).
  simpl. unfold terminal.
  pose proof (availableCells_zero (grid s)) as Hzero.
  destruct (availableCells (grid s) =? 0); simpl.
  - eexists. split; [reflexivity|]. simpl. split_and!; try done. tauto.
  - destruct found; simpl.
    + exists s. split; [reflexivity|]. split_and!; try done.
      rewrite Hover. intuition congruence.
    + eexists. split; [reflexivity|]. simpl. split_and!; try done.
      intuition congruence.
Qed.

(** The effect only ever touches [gameOver]. *)
Lemma gameOverEffect_fields (s s' : State) :
  gameOverEffect s = Ok s' →
  grid s' = grid s ∧ currentValue s' = currentValue s
  ∧ selectedCell s' = selectedCell s ∧ score s' = score s ∧ moves s' = moves s.
Proof.
  unfold gameOverEffect.
  destruct (selectedCell s) as [[row col]|] eqn:Hsel; [|by intros [= <-]].
  destruct (currentValue s) eqn:Hcur; [|by intros [= <-]].
  destruct (gameOver s); [by intros [= <-]|].
  destruct (hasAvailableMoves (grid s) row col) as [found|]; [simpl|discriminate].
  destruct ((availableCells (grid s) =? 0) || negb found); intros [= <-]; by simpl.
Qed.

(** ** The cell-press handler, by cases *)

(** A press either changes nothing or consumes the target: the target was
    an unused cell and the game was not over; the new grid is the old one
    with the target marked, the target is the new selection, the move
    count is one more.  On a first selection the score stays; on a move
    the score becomes the new value when that is greater. *)
Lemma handleCellPress_inv (s s' : State) (targetRow targetCol : Z) :
  handleCellPress s targetRow targetCol = Ok s' →
  s' = s
  ∨ ∃ target result,
      grid_at (grid s) targetRow targetCol = Ok target
      ∧ used target = false ∧ gameOver s = false
      ∧ grid s' = mark_used (grid s) targetRow targetCol
      ∧ currentValue s' = Some result
      ∧ selectedCell s' = Some (mkCoord targetRow targetCol)
      ∧ moves s' = moves s + 1
      ∧ gameOver s' = false
      ∧ ((currentValue s = None ∧ result = value target ∧ score s' = score s)
         ∨ (is_Some (currentValue s) ∧ is_Some (selectedCell s)
            ∧ score s' = if Qgt_bool result (score s) then result else score s)).
Proof.
  unfold handleCellPress.
  destruct (grid_at (grid s) targetRow targetCol) as [target|] eqn:Hat;
    [simpl|discriminate].
  destruct (used target) eqn:Hu; [intros [= <-]; by left|].
  destruct (gameOver s) eqn:Hover; [intros [= <-]; by left|]. simpl.
  destruct (currentValue s) as [current|] eqn:Hcur.
  - destruct (selectedCell s) as [[selRow selCol]|] eqn:Hsel; [|discriminate].
    destruct (getDirection selRow selCol targetRow targetCol) as [operation|];
      [|intros [= <-]; by left].
    unfold performOperation. rewrite Hcur, Hsel, Hat; simpl. rewrite Hu.
    intros [= <-]. right. exists target. eexists. simpl.
    do 8 (split; [done|]). right. by eauto.
  - intros [= <-]. right. exists target, (value target). simpl.
    do 8 (split; [done|]). left. done.
Qed.

(** ** The invariant *)

Lemma State_eq (s s' : State) :
  grid s' = grid s → currentValue s' = currentValue s →
  selectedCell s' = selectedCell s → score s' = score s →
  moves s' = moves s → gameOver s' = gameOver s → s' = s.
Proof. destruct s, s'; simpl; intros; congruence. Qed.

Lemma grid_at_Ok_in_bounds (g : Grid) (r c : Z) (cell : Cell) :
  grid_shape g → grid_at g r c = Ok cell → in_bounds r c.
Proof.
  intros Hshape Hat. destruct (decide (in_bounds r c)) as [|Hout]; [assumption|].
  rewrite (grid_at_out_of_bounds g r c Hshape Hout) in Hat. discriminate.
Qed.

Lemma generateInitialGrid_shape (random : nat → Q) :
  grid_shape (generateInitialGrid random).
Proof. split; [reflexivity | repeat constructor]. Qed.

Lemma generateInitialGrid_unused (random : nat → Q) :
  Forall (λ cell, used cell = false) (concat (generateInitialGrid random)).
Proof. repeat constructor. Qed.

Lemma invariant_initial (random : nat → Q) : invariant (initialState random).
Proof.
  split; simpl.
  - apply generateInitialGrid_shape.
  - tauto.
  - discriminate.
  - reflexivity.
  - split; [discriminate | intros (? & ? & ? & _); discriminate].
Qed.

(** On a state of the component the effect has nothing left to do. *)
Lemma gameOverEffect_stable (s : State) : invariant s → gameOverEffect s = Ok s.
Proof.
  intros [Hshape Hcoupled Hselected _ Hover].
  destruct (gameOver s) eqn:Hg; [by apply gameOverEffect_over|].
  destruct (selectedCell s) as [[row col]|] eqn:Hsel;
    [|by apply gameOverEffect_no_selection].
  destruct (currentValue s) as [current|] eqn:Hcur;
    [|destruct Hcoupled as [Hc _]; by specialize (Hc eq_refl)].
  destruct (gameOverEffect_spec s row col current) as (s' & -> & ? & ? & ? & ? & ? & Hs');
    try assumption.
  f_equal. apply State_eq; try congruence.
  rewrite Hg. destruct (gameOver s') eqn:Hg'; [|reflexivity].
  assert (false = true); [|done]. apply Hover. exists row, col. split; [done|].
  by apply Hs'.
Qed.

Lemma invariant_onCellTapped (s : State) (targetRow targetCol : Z) :
  invariant s → invariant (onCellTapped s targetRow targetCol).
Proof.
  intros Hinv. unfold onCellTapped.
  destruct (handleCellPress s targetRow targetCol) as [s1|] eqn:Hpress; simpl;
    [|by rewrite gameOverEffect_stable].
  apply handleCellPress_inv in Hpress as [-> | Hmove];
    [by rewrite gameOverEffect_stable|].
  destruct Hmove as (target & result & Hat & Hu & Hg & Hgrid & Hcur & Hsel
                     & Hmoves & Hg1 & _).
  destruct Hinv as [Hshape Hcoupled Hselected Hcount Hover].
  assert (grid_shape (grid s1)) as Hshape1.
  { rewrite Hgrid. by apply grid_shape_mark_used. }
  destruct (gameOverEffect_spec s1 targetRow targetCol result)
    as (s2 & -> & Hgrid2 & Hcur2 & Hsel2 & Hscore2 & Hmoves2 & Hover2);
    try assumption.
  simpl. split.
  - by rewrite Hgrid2.
  - rewrite Hcur2, Hsel2, Hcur, Hsel. split; discriminate.
  - intros r c. rewrite Hsel2, Hsel, Hgrid2, Hgrid. intros [= <- <-].
    split; [exact (grid_at_Ok_in_bounds _ _ _ _ Hshape Hat)|].
    eexists. split; [by apply grid_at_mark_used_eq|]. reflexivity.
  - rewrite Hmoves2, Hmoves, Hgrid2, Hgrid, Hcount.
    rewrite (usedCells_mark_used _ _ _ target) by assumption. lia.
  - rewrite Hover2, Hsel2, Hsel, Hgrid2. split.
    + intros Hterm. by exists targetRow, targetCol.
    + by intros (r & c & [= <- <-] & Hterm).
Qed.

Lemma invariant_run (events : list Event) (s : State) :
  invariant s → invariant (run s events).
Proof.
  revert s. induction events as [|e events IH]; intros s Hinv; [assumption|].
  apply IH. destruct e as [targetRow targetCol | random]; simpl.
  - by apply invariant_onCellTapped.
  - apply invariant_initial.
Qed.

Lemma reachable_invariant (s : State) : reachable s → invariant s.
Proof.
  intros (random & events & ->). apply invariant_run, invariant_initial.
Qed.

(** ** C3: taps outside the grid *)

Example sample_state_grid :
  map (map (λ cell, Qfloor (value cell))) (grid sample_state)
  = [[1; 2; 3; 4]; [5; 6; 7; 8]; [9; 1; 2; 3]; [4; 5; 6; 7]].
Proof. reflexivity. Qed.

Lemma pressables_in_grid (g : Grid) (r c : Z) :
  (r, c) ∈ pressables g → ∃ cell, grid_at g r c = Ok cell.
Proof.
  unfold pressables. rewrite list_elem_of_In, in_concat.
  intros (presses & Hrow%list_elem_of_In & Hcol%list_elem_of_In).
  apply elem_of_lookup_imap_1 in Hrow as (i & cells & -> & Hcells).
  apply elem_of_lookup_imap_1 in Hcol as (j & cell & [= -> ->] & Hcell).
  exists cell. apply grid_at_Ok. split_and!; [lia | lia |].
  exists cells. by rewrite !Nat2Z.id.
Qed.

(** The handler reads [grid[row][col]] unguarded: were it called with a
    coordinate outside the grid, it would throw at that read, before any
    update. *)
Lemma handleCellPress_outside (s : State) (targetRow targetCol : Z) :
  invariant s → ¬ in_bounds targetRow targetCol →
  handleCellPress s targetRow targetCol = TypeError.
Proof.
  intros Hinv Hout. unfold handleCellPress.
  by rewrite (grid_at_out_of_bounds _ _ _ (inv_shape s Hinv) Hout).
Qed.

Lemma handleCellPress_returns (s : State) (targetRow targetCol : Z) :
  invariant s → in_bounds targetRow targetCol →
  ∃ s', handleCellPress s targetRow targetCol = Ok s'.
Proof.
  intros Hinv Hin. unfold handleCellPress.
  destruct (grid_at_in_bounds _ _ _ (inv_shape s Hinv) Hin) as [cell ->]. simpl.
  destruct (used cell || gameOver s); [by eexists|].
  destruct (currentValue s) as [current|] eqn:Hcur; [|by eexists].
  destruct (selectedCell s) as [[selRow selCol]|] eqn:Hsel.
  - destruct (getDirection selRow selCol targetRow targetCol); [|by eexists].
    unfold performOperation. rewrite Hcur, Hsel.
    destruct (grid_at_in_bounds _ _ _ (inv_shape s Hinv) Hin) as [target ->]. simpl.
    destruct (used target); by eexists.
  - apply (inv_coupled s Hinv) in Hsel. congruence.
Qed.

(** C3.  In every state of the component a coordinate outside the grid
    is never dispatched to the handler: the grid view, the only caller,
    offers presses on the cells it draws, all of them inside the grid,
    and each of those presses returns without an exception.  The
    out-of-bounds read is unreachable rather than guarded: the handler
    has no bounds test of its own, and a call outside the grid would end
    at its first read, before any update.  Either way the state after a
    tap outside the grid is the state before it. *)
Theorem out_of_bounds_press_unreachable (s : State) (targetRow targetCol : Z) :
  reachable s →
  ¬ in_bounds targetRow targetCol →
  ((targetRow, targetCol) ∉ pressables (grid s))
  ∧ (∀ r c, (r, c) ∈ pressables (grid s) →
            in_bounds r c ∧ ∃ s', handleCellPress s r c = Ok s')
  ∧ commit s (handleCellPress s targetRow targetCol) = s
  ∧ onCellTapped s targetRow targetCol = s.
Proof.
  intros Hinv%reachable_invariant Hout.
  assert (∀ r c, (r, c) ∈ pressables (grid s) → in_bounds r c) as Hdrawn.
  { intros r c [cell Hcell]%pressables_in_grid.
    exact (grid_at_Ok_in_bounds _ _ _ _ (inv_shape s Hinv) Hcell). }
  split_and!.
  - intros Hin. by apply Hout, Hdrawn.
  - intros r c Hin. split; [by apply Hdrawn|].
    by apply handleCellPress_returns, Hdrawn.
  - by rewrite handleCellPress_outside.
  - unfold onCellTapped. rewrite handleCellPress_outside by assumption. simpl.
    by rewrite gameOverEffect_stable.
Qed.

Lemma out_of_bounds_press_unreachable_witness :
  ((4, 0) ∉ pressables (grid (run sample_state [CellTapped 0 0])))
  ∧ (∀ r c, (r, c) ∈ pressables (grid (run sample_state [CellTapped 0 0])) →
            in_bounds r c
            ∧ ∃ s', handleCellPress (run sample_state [CellTapped 0 0]) r c = Ok s')
  ∧ commit (run sample_state [CellTapped 0 0])
           (handleCellPress (run sample_state [CellTapped 0 0]) 4 0)
    = run sample_state [CellTapped 0 0]
  ∧ onCellTapped (run sample_state [CellTapped 0 0]) 4 0
    = run sample_state [CellTapped 0 0].
Proof.
  apply (out_of_bounds_press_unreachable (run sample_state [CellTapped 0 0]) 4 0).
  - exists sample_random, [CellTapped 0 0]. reflexivity.
  - unfold in_bounds, GRID_SIZE. lia.
Defined.

(** ** C4: the terminal check *)

Example corner_is_terminal :
  let s := play sample_state [(0, 1); (1, 1); (1, 0); (0, 0)] in
  gameOver s = true ∧ usedCells (grid s) = 4%nat.
Proof. split; reflexivity. Qed.

(** C4.  Without a selection the effect never marks the state terminal.
    With a selection at [(row, col)] (and the running value that comes
    with it) on a game that is not yet over, the effect sets [gameOver]
    exactly when all cells are used or no unused cell is among the
    in-bounds neighbours of [(row, col)], and changes nothing else.
    Hence in every state of the component [gameOver] holds exactly when
    there is a selection for which that condition holds. *)
Theorem terminal_check_exact :
  (∀ s, selectedCell s = None → gameOverEffect s = Ok s)
  ∧ (∀ s row col,
       grid_shape (grid s) →
       selectedCell s = Some (mkCoord row col) →
       is_Some (currentValue s) →
       gameOver s = false →
       ∃ s', gameOverEffect s = Ok s'
             ∧ grid s' = grid s ∧ currentValue s' = currentValue s
             ∧ selectedCell s' = selectedCell s ∧ score s' = score s
             ∧ moves s' = moves s
             ∧ (gameOver s' = true ↔ terminal (grid s) row col))
  ∧ (∀ s, reachable s →
       (gameOver s = true ↔
        ∃ row col, selectedCell s = Some (mkCoord row col)
                   ∧ terminal (grid s) row col)).
Proof.
  split_and!.
  - apply gameOverEffect_no_selection.
  - intros s row col Hshape Hsel [current Hcur] Hover.
    by apply (gameOverEffect_spec s row col current).
  - intros s Hinv%reachable_invariant. apply (inv_gameOver s Hinv).
Qed.

Lemma terminal_check_exact_witness :
  gameOverEffect sample_state = Ok sample_state
  ∧ (∃ s', gameOverEffect (run sample_state [CellTapped 0 0]) = Ok s'
           ∧ (gameOver s' = true
              ↔ terminal (grid (run sample_state [CellTapped 0 0])) 0 0))
  ∧ (gameOver (run sample_state [CellTapped 0 1; CellTapped 1 1;
                                 CellTapped 1 0; CellTapped 0 0]) = true
     ↔ ∃ row col,
         selectedCell (run sample_state [CellTapped 0 1; CellTapped 1 1;
                                         CellTapped 1 0; CellTapped 0 0])
         = Some (mkCoord row col)
         ∧ terminal (grid (run sample_state [CellTapped 0 1; CellTapped 1 1;
                                             CellTapped 1 0; CellTapped 0 0]))
                    row col).
Proof.
  destruct terminal_check_exact as (Hnone & Heffect & Hreach).
  split; [|split].
  - apply Hnone. reflexivity.
  - destruct (Heffect (run sample_state [CellTapped 0 0]) 0 0)
      as (s' & Hs' & _ & _ & _ & _ & _ & Hover).
    + split; [reflexivity | repeat constructor].
    + reflexivity.
    + eexists. reflexivity.
    + reflexivity.
    + exists s'. split; assumption.
  - apply Hreach. eexists sample_random, _. reflexivity.
Defined.

(** ** C8: the selected cell is used *)

(** C8.  In every state of the component (after any taps and resets), a
    selected cell is a used cell of the grid.  A press that changes the
    selection selects the pressed cell and marks that cell used in the
    same transition; this holds for the first selection and for a move. *)
Theorem selected_cell_is_used :
  (∀ s row col,
     reachable s → selectedCell s = Some (mkCoord row col) →
     ∃ cell, grid_at (grid s) row col = Ok cell ∧ used cell = true)
  ∧ (∀ s targetRow targetCol s',
       handleCellPress s targetRow targetCol = Ok s' →
       s' = s
       ∨ (selectedCell s' = Some (mkCoord targetRow targetCol)
          ∧ grid s' = mark_used (grid s) targetRow targetCol
          ∧ ∃ cell, grid_at (grid s') targetRow targetCol = Ok cell
                    ∧ used cell = true)).
Proof.
  split.
  - intros s row col Hinv%reachable_invariant Hsel.
    apply (inv_selected s Hinv row col Hsel).
  - intros s targetRow targetCol s' [-> | Hmove]%handleCellPress_inv; [by left|].
    destruct Hmove as (target & result & Hat & _ & _ & Hgrid & _ & Hsel & _).
    right. split_and!; [assumption..|]. rewrite Hgrid.
    eexists. split; [by apply grid_at_mark_used_eq | reflexivity].
Qed.

Lemma selected_cell_is_used_witness :
  (∃ cell, grid_at (grid (run sample_state [CellTapped 2 1; CellTapped 1 2])) 1 2
           = Ok cell ∧ used cell = true)
  ∧ (onCellTapped sample_state 3 3 = sample_state
     ∨ (selectedCell (onCellTapped sample_state 3 3) = Some (mkCoord 3 3)
        ∧ grid (onCellTapped sample_state 3 3) = mark_used (grid sample_state) 3 3
        ∧ ∃ cell, grid_at (grid (onCellTapped sample_state 3 3)) 3 3 = Ok cell
                  ∧ used cell = true)).
Proof.
  destruct selected_cell_is_used as [Hreach Hpress]. split.
  - apply Hreach; [|reflexivity]. eexists sample_random, _. reflexivity.
  - apply (Hpress sample_state 3 3). reflexivity.
Defined.

(** ** C10: the move count is the number of used cells *)

(** C10.  In every state of the component the move count equals the
    number of used cells.  A press either changes nothing, or it is a
    first selection or a successful move: then the pressed cell was
    unused and is now used, every other cell is as before, the number of
    used cells is one more and the move count is one more. *)
Theorem moves_count_used_cells :
  (∀ s, reachable s → moves s = Z.of_nat (usedCells (grid s)))
  ∧ (∀ s targetRow targetCol s',
       handleCellPress s targetRow targetCol = Ok s' →
       s' = s
       ∨ (moves s' = moves s + 1
          ∧ usedCells (grid s') = S (usedCells (grid s))
          ∧ (∃ before after,
               grid_at (grid s) targetRow targetCol = Ok before
               ∧ used before = false
               ∧ grid_at (grid s') targetRow targetCol = Ok after
               ∧ used after = true)
          ∧ (∀ r c, ¬ (r = targetRow ∧ c = targetCol) →
                    grid_at (grid s') r c = grid_at (grid s) r c))).
Proof.
  split.
  - intros s Hinv%reachable_invariant. apply (inv_moves s Hinv).
  - intros s targetRow targetCol s' [-> | Hmove]%handleCellPress_inv; [by left|].
    destruct Hmove as (target & result & Hat & Hu & _ & Hgrid & _ & _ & Hmoves & _).
    right. rewrite Hgrid. split_and!.
    + assumption.
    + by apply (usedCells_mark_used _ _ _ target).
    + exists target, {| value := value target; used := true; id := id target |}.
      split_and!; [assumption.. | by apply grid_at_mark_used_eq | reflexivity].
    + intros r c Hne. apply grid_at_Ok in Hat as (? & ? & _).
      by apply grid_at_mark_used_ne.
Qed.

Lemma moves_count_used_cells_witness :
  moves (run sample_state [CellTapped 0 0; CellTapped 1 1; CellTapped 3 3])
  = Z.of_nat (usedCells (grid (run sample_state
                                 [CellTapped 0 0; CellTapped 1 1; CellTapped 3 3])))
  ∧ (onCellTapped sample_state 2 2 = sample_state
     ∨ moves (onCellTapped sample_state 2 2) = moves sample_state + 1).
Proof.
  destruct moves_count_used_cells as [Hreach Hpress]. split.
  - apply Hreach. eexists sample_random, _. reflexivity.
  - destruct (Hpress sample_state 2 2 (onCellTapped sample_state 2 2) eq_refl)
      as [Hsame | [Hmoves _]]; [by left | by right].
Defined.

(** ** Numbers *)

Lemma Qgt_bool_iff (a b : Q) : Qgt_bool a b = true ↔ (b < a)%Q.
Proof.
  unfold Qgt_bool. rewrite negb_true_iff, <- not_true_iff_false, Qle_bool_iff.
  split; [apply Qnot_le_lt | apply Qlt_not_le].
Qed.




Lemma draw_range (x : Q) :
  (0 <= x)%Q → (x < 1)%Q → 0 <= Qfloor (x * 9) <= 8.
Proof.
  intros H0 H1.
  pose proof (Qfloor_le (x * 9)) as Hle.
  pose proof (Qlt_floor (x * 9)) as Hlt.
  rewrite inject_Z_plus in Hlt. change (inject_Z 1) with 1%Q in Hlt.
  split.
  - assert (-1 < Qfloor (x * 9)); [|lia].
    rewrite Zlt_Qlt. change (inject_Z (-1)) with (-1)%Q. lra.
  - assert (Qfloor (x * 9) < 9); [|lia].
    rewrite Zlt_Qlt. change (inject_Z 9) with 9%Q. lra.
Qed.

(** ** C5: the score never decreases *)

Lemma score_handleCellPress (s s' : State) (targetRow targetCol : Z) :
  handleCellPress s targetRow targetCol = Ok s' → (score s <= score s')%Q.
Proof.
  intros [-> | Hmove]%handleCellPress_inv; [apply Qle_refl|].
  destruct Hmove as (target & result & _ & _ & _ & _ & _ & _ & _ & _ & Hscore).
  destruct Hscore as [(_ & _ & ->) | (_ & _ & ->)]; [apply Qle_refl|].
  destruct (Qgt_bool result (score s)) eqn:Hgt; [|apply Qle_refl].
  apply Qlt_le_weak, Qgt_bool_iff, Hgt.
Qed.

Lemma score_onCellTapped (s : State) (targetRow targetCol : Z) :
  (score s <= score (onCellTapped s targetRow targetCol))%Q.
Proof.
  unfold onCellTapped.
  assert (score s <= score (commit s (handleCellPress s targetRow targetCol)))%Q
    as Hpress.
  { destruct (handleCellPress s targetRow targetCol) as [s1|] eqn:E; simpl;
      [by eapply score_handleCellPress | apply Qle_refl]. }
  set (s1 := commit s (handleCellPress s targetRow targetCol)) in *.
  destruct (gameOverEffect s1) as [s2|] eqn:E; simpl; [|assumption].
  apply gameOverEffect_fields in E as (_ & _ & _ & -> & _). assumption.
Qed.

(** C5.  Over any sequence of taps without a reset the score does not
    decrease.  A first selection leaves the score as it is; a move sets
    the score to the newly computed running value when that value is
    greater than the stored score and leaves it as it is otherwise. *)
Theorem score_monotone :
  (∀ s taps, (score s <= score (play s taps))%Q)
  ∧ (∀ s targetRow targetCol s',
       handleCellPress s targetRow targetCol = Ok s' →
       s' = s
       ∨ (currentValue s = None ∧ score s' = score s)
       ∨ (∃ result,
            is_Some (currentValue s)
            ∧ currentValue s' = Some result
            ∧ ((score s < result)%Q → score s' = result)
            ∧ (¬ (score s < result)%Q → score s' = score s))).
Proof.
  split.
  - intros s taps. revert s. induction taps as [|[r c] taps IH]; intros s.
    + apply Qle_refl.
    + simpl. eapply Qle_trans; [apply (score_onCellTapped s r c) | apply IH].
  - intros s targetRow targetCol s' [-> | Hmove]%handleCellPress_inv; [by left|].
    destruct Hmove as (target & result & _ & _ & _ & _ & Hcur & _ & _ & _ & Hscore).
    right. destruct Hscore as [(Hnone & _ & Hs) | (Hsome & _ & Hs)]; [by left|].
    right. exists result. split_and!; [assumption.. | |].
    + intros Hgt%Qgt_bool_iff. by rewrite Hs, Hgt.
    + intros Hngt. rewrite Hs.
      destruct (Qgt_bool result (score s)) eqn:Hgt; [|reflexivity].
      by apply Qgt_bool_iff in Hgt.
Qed.

Example score_trace :
  map (λ taps, Qfloor (score (play sample_state taps)))
      [[]; [(1, 1)]; [(1, 1); (1, 2)]; [(1, 1); (1, 2); (2, 2)];
       [(1, 1); (1, 2); (2, 2); (1, 3)]]
  = [0; 0; 13; 13; 88].
Proof. reflexivity. Qed.

Lemma score_monotone_witness :
  Qle (score sample_state) (score (play sample_state [(1, 1); (1, 2); (2, 2)]))
  ∧ (onCellTapped (play sample_state [(1, 1)]) 1 2 = play sample_state [(1, 1)]
     ∨ score (onCellTapped (play sample_state [(1, 1)]) 1 2) = 13%Q).
Proof.
  destruct score_monotone as [Hplay Hpress]. split.
  - apply Hplay.
  - destruct (Hpress (play sample_state [(1, 1)]) 1 2
                (onCellTapped (play sample_state [(1, 1)]) 1 2) eq_refl)
      as [Hsame | [[Hnone _] | (result & _ & Hcur & Hgt & _)]].
    + by left.
    + discriminate Hnone.
    + right. injection Hcur as <-. apply Hgt. reflexivity.
Defined.

(** ** Division in the exact-arithmetic engine *)


(** The effect leaves the running value alone, whether it returns or
    throws. *)
Lemma currentValue_after_effect (s1 : State) :
  currentValue (commit s1 (gameOverEffect s1)) = currentValue s1.
Proof.
  destruct (gameOverEffect s1) as [s2|] eqn:E; simpl; [|reflexivity].
  by apply gameOverEffect_fields in E as (_ & -> & _).
Qed.

(** ** C9: the generated grid *)

Lemma generateInitialGrid_cells (random : nat → Q) :
  generateInitialGrid random
  = (λ i, cellAt random i <$> [0; 1; 2; 3]) <$> [0; 1; 2; 3].
Proof. reflexivity. Qed.

Lemma generateInitialGrid_ids (random : nat → Q) :
  id <$> concat (generateInitialGrid random)
  = ["0-0-0"; "0-1-1"; "0-2-2"; "0-3-3"; "1-0-4"; "1-1-5"; "1-2-6"; "1-3-7";
     "2-0-8"; "2-1-9"; "2-2-10"; "2-3-11"; "3-0-12"; "3-1-13"; "3-2-14"; "3-3-15"].
Proof. reflexivity. Qed.

Lemma generateInitialGrid_at (random : nat → Q) (i j : Z) :
  in_bounds i j → grid_at (generateInitialGrid random) i j = Ok (cellAt random i j).
Proof.
  intros [Hi Hj]. unfold GRID_SIZE in *.
  assert (i = 0 ∨ i = 1 ∨ i = 2 ∨ i = 3) as Hi' by lia.
  assert (j = 0 ∨ j = 1 ∨ j = 2 ∨ j = 3) as Hj' by lia.
  destruct Hi' as [-> | [-> | [-> | ->]]], Hj' as [-> | [-> | [-> | ->]]];
    reflexivity.
Qed.

Lemma cellAt_value (random : nat → Q) (i j : Z) :
  (∀ n, (0 <= random n)%Q ∧ (random n < 1)%Q) →
  ∃ v : Z, 1 <= v <= 9 ∧ (value (cellAt random i j) == inject_Z v)%Q.
Proof.
  intros Hrandom. simpl.
  set (n := Z.to_nat (GRID_SIZE * i + j)).
  destruct (Hrandom n) as [H0 H1].
  exists (Qfloor (random n * 9) + 1). split.
  - pose proof (draw_range (random n) H0 H1). lia.
  - rewrite inject_Z_plus. reflexivity.
Qed.

(** C9.  With [Math.random] returning numbers in [[0, 1)], the generated
    grid has 4 rows of 4 cells, 16 cells in all; the cell at row [i],
    column [j] is the one built from draw and counter number [4 * i + j]
    (row-major order); every value is an integer from 1 to 9; every cell
    is unused; the identifiers of the 16 cells are pairwise distinct. *)
Theorem generateInitialGrid_spec (random : nat → Q) :
  (∀ n, (0 <= random n)%Q ∧ (random n < 1)%Q) →
  let g := generateInitialGrid random in
  length g = 4%nat
  ∧ Forall (λ cells, length cells = 4%nat) g
  ∧ length (concat g) = 16%nat
  ∧ (∀ i j, in_bounds i j → grid_at g i j = Ok (cellAt random i j))
  ∧ Forall (λ cell, (∃ v : Z, 1 <= v <= 9 ∧ (value cell == inject_Z v)%Q)
                    ∧ used cell = false) (concat g)
  ∧ NoDup (id <$> concat g).
Proof.
  intros Hrandom g. split_and!.
  - reflexivity.
  - repeat constructor.
  - reflexivity.
  - intros i j. apply generateInitialGrid_at.
  - subst g. rewrite generateInitialGrid_cells. simpl.
    repeat (apply Forall_cons; split;
            [split; [by apply cellAt_value | reflexivity]|]).
    apply Forall_nil_2.
  - subst g. rewrite generateInitialGrid_ids.
    apply (bool_decide_unpack _). vm_compute. exact I.
Qed.

Lemma sample_random_range (n : nat) :
  (0 <= sample_random n)%Q ∧ (sample_random n < 1)%Q.
Proof.
  pose proof (Nat.mod_upper_bound n 9).
  unfold sample_random, Qle, Qlt; simpl. lia.
Defined.

Lemma generateInitialGrid_spec_witness :
  length (concat (generateInitialGrid sample_random)) = 16%nat
  ∧ NoDup (id <$> concat (generateInitialGrid sample_random)).
Proof.
  destruct (generateInitialGrid_spec sample_random sample_random_range)
    as (_ & _ & Hlen & _ & _ & Hids).
  split; [exact Hlen | exact Hids].
Defined.

(** ** Two decimal places throughout a game *)







(** ** C6: division over binary64 numbers *)

Example Math_round_samples :
  map Binary64.Math_round
      [(5 / 2)%float; (- (5 / 2))%float; (1 / 2)%float; (- (1 / 2))%float;
       (2 / 5)%float; (- (2 / 5))%float; 134%float; (267 / 2)%float;
       0%float; (- 0)%float; infinity; nan]
  = [3%float; (- 2)%float; 1%float; (- 0)%float;
     0%float; (- 0)%float; 134%float; 134%float;
     0%float; (- 0)%float; infinity; nan].
Proof. reflexivity. Qed.

Lemma round_half_up_nearest (s : bool) (m : positive) (e : Z) :
  e < 0 →
  Binary64.nearest_ties_up (Binary64.fraction_value s m e)
                           (Binary64.round_half_up s m e).
Proof.
  intros He.
  unfold Binary64.nearest_ties_up, Binary64.fraction_value, Binary64.round_half_up.
  set (n := if s then Z.neg m else Z.pos m).
  assert (0 < 2 ^ (- e)) as Hd by (apply Z.pow_pos_nonneg; lia).
  replace (1 - e) with (Z.succ (- e)) by lia.
  rewrite Z.pow_succ_r by lia.
  set (d := 2 ^ (- e)) in *.
  pose proof (Z.mul_div_le (2 * n + d) (2 * d) ltac:(lia)) as Hle.
  pose proof (Z.mul_succ_div_gt (2 * n + d) (2 * d) ltac:(lia)) as Hgt.
  set (k := (2 * n + d) / (2 * d)) in *.
  unfold Qlt, Qle, Qminus, Qplus, Qopp, inject_Z; simpl.
  rewrite !Pos2Z.inj_mul, !Z2Pos.id by lia.
  split; nia.
Qed.

Lemma Math_round_rounds (p : float) :
  Binary64.rounds_to_integer p (Binary64.Math_round p).
Proof.
  unfold Binary64.rounds_to_integer, Binary64.Math_round.
  destruct (Prim2SF p) as [| | |s m e]; try reflexivity.
  destruct (Z.leb_spec 0 e); [reflexivity|].
  exists (Binary64.round_half_up s m e).
  split; [by apply round_half_up_nearest | reflexivity].
Qed.

(** C6.  Over binary64 numbers, a move that resolves to [divide] onto an
    unused cell whose value is not zero sets the running value to
    [Math.round (currentValue / targetValue * 100) / 100], every
    operation being the binary64 one.  [Math.round] takes the product to
    an integer: a product with a fractional part goes to the nearest
    integer, a tie going up (a zero result keeping the sign); a product
    that is an integer, a zero or not finite stays.  So the value stored
    after a Divide is the binary64 quotient of an integer by 100, a
    number of two decimal places as far as binary64 has them. *)
Theorem divide_rounds_binary64 (s : Binary64.State) (targetRow targetCol : Z)
    (current : float) (selected : Coord) (target : Binary64.Cell) :
  Binary64.currentValue s = Some current →
  Binary64.selectedCell s = Some selected →
  getDirection (row selected) (col selected) targetRow targetCol = Some divide →
  Binary64.grid_at (Binary64.grid s) targetRow targetCol = Ok target →
  Binary64.used target = false →
  Binary64.gameOver s = false →
  PrimFloat.eqb (Binary64.value target) 0 = false →
  let product := (current / Binary64.value target * 100)%float in
  let rounded := Binary64.Math_round product in
  (∃ s', Binary64.handleCellPress s targetRow targetCol = Ok s'
         ∧ Binary64.currentValue s' = Some (rounded / 100)%float)
  ∧ Binary64.rounds_to_integer product rounded.
Proof.
  intros Hcur Hsel Hdir Hat Hu Hover Hnz product rounded.
  split; [|apply Math_round_rounds].
  unfold Binary64.handleCellPress. rewrite Hat; simpl.
  rewrite Hu, Hover, Hcur, Hsel; simpl.
  destruct selected as [selRow selCol]; simpl in Hdir. rewrite Hdir.
  unfold Binary64.performOperation. rewrite Hcur, Hsel, Hat; simpl.
  rewrite Hu, Hnz. simpl. eexists. split; reflexivity.
Qed.

Lemma divide_rounds_binary64_witness :
  (∃ s', Binary64.handleCellPress
           (foldl Binary64.press binary64_sample_state [(0, 3); (1, 2)]) 0 1
         = Ok s'
         ∧ Binary64.currentValue s' = Some (28 / 100)%float)
  ∧ Binary64.rounds_to_integer (57 / 100 / 2 * 100)%float 28%float.
Proof.
  apply (divide_rounds_binary64
           (foldl Binary64.press binary64_sample_state [(0, 3); (1, 2)]) 0 1
           (57 / 100)%float (mkCoord 1 2)
           (Binary64.mkCell 2%float false "0-1-1")); reflexivity.
Defined.

(** The sample game of three presses, 4 divided by 7 and then by 2.  In
    binary64, as in the program, [0.57 / 2 * 100] is
    [28.499999999999996] and the value stored is [0.28]; in exact
    arithmetic [57/100 / 2 * 100] is the tie [28.5] and the value is
    [29/100]. *)
Example two_models_part :
  Binary64.currentValue
    (foldl Binary64.press binary64_sample_state [(0, 3); (1, 2); (0, 1)])
  = Some (28 / 100)%float
  ∧ currentValue (play sample_state [(0, 3); (1, 2); (0, 1)]) = Some (29 # 100).
Proof. split; reflexivity. Qed.

(** ** C7: a divisor of zero *)








(** A grid with a 0 takes a draw outside the contract.  There the move
    onto the 0 keeps the running value: 6 before and after. *)
Example divide_by_zero_outside_contract :
  let s := run (initialState zero_corner_random) [CellTapped 1 1] in
  (∃ target, grid_at (grid s) 0 0 = Ok target ∧ (value target == 0)%Q)
  ∧ getDirection 1 1 0 0 = Some divide
  ∧ currentValue s = Some 6%Q
  ∧ ∃ new, currentValue (onCellTapped s 0 0) = Some new ∧ (new == 6)%Q.
Proof.
  split_and!; [eexists; split; reflexivity | reflexivity | reflexivity |].
  eexists. split; reflexivity.
Qed.

(** * Further properties of the engine *)

(** ** Directions *)

(** X1.  Going back along a direction resolves to the inverse operation:
    the way back from an [add] neighbour is a [subtract], from a
    [multiply] neighbour a [divide], and the other way round; where one
    direction resolves to nothing, so does the other. *)
Theorem getDirection_reverse (fromRow fromCol toRow toCol : Z) :
  getDirection toRow toCol fromRow fromCol
  = inverseOperation <$> getDirection fromRow fromCol toRow toCol.
Proof.
  unfold getDirection.
  replace (fromRow - toRow) with (- (toRow - fromRow)) by lia.
  replace (fromCol - toCol) with (- (toCol - fromCol)) by lia.
  generalize (toRow - fromRow) (toCol - fromCol); intros dr dc; cbv zeta.
  rewrite !Z.abs_opp.
  destruct (Z.ltb_spec 1 (Z.abs dr)) as [Hr|Hr]; [reflexivity|].
  destruct (Z.ltb_spec 1 (Z.abs dc)) as [Hc|Hc]; [reflexivity|].
  destruct (near_cases dr Hr) as [-> | [-> | ->]],
    (near_cases dc Hc) as [-> | [-> | ->]]; reflexivity.
Qed.

(** ** A finished game *)

Lemma onCellTapped_over (s : State) (targetRow targetCol : Z) :
  gameOver s = true → onCellTapped s targetRow targetCol = s.
Proof.
  intros Hover. unfold onCellTapped, handleCellPress.
  destruct (grid_at (grid s) targetRow targetCol) as [cell|]; simpl.
  - rewrite Hover, orb_true_r. simpl. by rewrite gameOverEffect_over.
  - by rewrite gameOverEffect_over.
Qed.

(** X2.  Game over is final for taps: once [gameOver] is set, no
    sequence of taps, in or out of the grid, changes anything in the
    state.  Only a reset leaves a finished game. *)
Theorem game_over_absorbing (s : State) (taps : list (Z * Z)) :
  gameOver s = true → play s taps = s.
Proof.
  intros Hover. induction taps as [|[r c] taps IH]; [reflexivity|].
  simpl. rewrite onCellTapped_over by assumption. exact IH.
Qed.

Lemma game_over_absorbing_witness :
  play (play sample_state [(0, 1); (1, 1); (1, 0); (0, 0)]) [(2, 2); (0, 0); (7, 7)]
  = play sample_state [(0, 1); (1, 1); (1, 0); (0, 0)].
Proof. apply game_over_absorbing. reflexivity. Defined.

(** ** Cells *)

Lemma cell_kept_mark_used (g : Grid) (r c r' c' : Z) (cell : Cell) :
  0 <= r → 0 <= c →
  grid_at g r' c' = Ok cell →
  ∃ cell', grid_at (mark_used g r c) r' c' = Ok cell'
           ∧ value cell' = value cell ∧ id cell' = id cell
           ∧ (used cell = true → used cell' = true).
Proof.
  intros Hr Hc Hcell.
  destruct (decide (r' = r ∧ c' = c)) as [[-> ->] | Hne].
  - eexists. split; [by apply grid_at_mark_used_eq|]. by simpl.
  - exists cell. split; [|done]. by rewrite grid_at_mark_used_ne.
Qed.

Lemma cell_kept_onCellTapped (s : State) (targetRow targetCol r c : Z) (cell : Cell) :
  grid_at (grid s) r c = Ok cell →
  ∃ cell', grid_at (grid (onCellTapped s targetRow targetCol)) r c = Ok cell'
           ∧ value cell' = value cell ∧ id cell' = id cell
           ∧ (used cell = true → used cell' = true).
Proof.
  intros Hcell. unfold onCellTapped.
  assert (∃ cell', grid_at (grid (commit s (handleCellPress s targetRow targetCol)))
                           r c = Ok cell'
                   ∧ value cell' = value cell ∧ id cell' = id cell
                   ∧ (used cell = true → used cell' = true)) as Hpress.
  { destruct (handleCellPress s targetRow targetCol) as [s1|] eqn:E; simpl;
      [|by exists cell].
    apply handleCellPress_inv in E as [-> | Hmove]; [by exists cell|].
    destruct Hmove as (target & _ & Hat & _ & _ & -> & _).
    apply grid_at_Ok in Hat as (? & ? & _). by apply cell_kept_mark_used. }
  set (s1 := commit s (handleCellPress s targetRow targetCol)) in *.
  destruct (gameOverEffect s1) as [s2|] eqn:E; simpl; [|exact Hpress].
  apply gameOverEffect_fields in E as (-> & _). exact Hpress.
Qed.

Lemma mark_used_lengths (g : Grid) (r c : Z) :
  length <$> mark_used g r c = length <$> g.
Proof.
  unfold mark_used. generalize (Z.to_nat r) as i.
  induction g as [|cells g IH]; intros [|i]; simpl; try reflexivity.
  - f_equal. apply length_alter.
  - f_equal. apply IH.
Qed.

(** What one tap does to the grid. *)
Lemma grid_after_tap (s : State) (targetRow targetCol : Z) :
  grid (onCellTapped s targetRow targetCol) = grid s
  ∨ ∃ target,
      grid_at (grid s) targetRow targetCol = Ok target
      ∧ used target = false
      ∧ grid (onCellTapped s targetRow targetCol)
        = mark_used (grid s) targetRow targetCol.
Proof.
  unfold onCellTapped.
  assert (grid (commit s (handleCellPress s targetRow targetCol)) = grid s
          ∨ ∃ target,
              grid_at (grid s) targetRow targetCol = Ok target
              ∧ used target = false
              ∧ grid (commit s (handleCellPress s targetRow targetCol))
                = mark_used (grid s) targetRow targetCol) as Hpress.
  { destruct (handleCellPress s targetRow targetCol) as [s1|] eqn:E; simpl;
      [|by left].
    apply handleCellPress_inv in E as [-> | Hmove]; [by left|].
    destruct Hmove as (target & _ & Hat & Hu & _ & -> & _). right. by exists target. }
  set (s1 := commit s (handleCellPress s targetRow targetCol)) in *.
  destruct (gameOverEffect s1) as [s2|] eqn:E; simpl; [|exact Hpress].
  apply gameOverEffect_fields in E as (-> & _). exact Hpress.
Qed.

Lemma usedCells_play (s : State) (taps : list (Z * Z)) :
  (usedCells (grid (play s taps)) <= usedCells (grid s) + length taps)%nat.
Proof.
  revert s. induction taps as [|[r c] taps IH]; intros s; simpl; [lia|].
  specialize (IH (onCellTapped s r c)).
  destruct (grid_after_tap s r c) as [Hsame | (target & Hat & Hu & Hgrid)].
  - rewrite Hsame in IH. lia.
  - rewrite Hgrid, (usedCells_mark_used _ _ _ target) in IH by assumption. lia.
Qed.

(** X3.  The only thing a tap ever changes in the grid is one [used]
    flag, from false to true.  One tap leaves the grid as it is, or else
    the tapped cell was unused and is afterwards the same cell marked
    used, every other position reads exactly as before, the rows have
    the lengths they had, and the number of used cells is one more.  So
    over any sequence of taps every cell keeps its place, its value and
    its identifier, a used cell stays used, and the number of used cells
    grows by at most one for each tap. *)
Theorem cells_kept :
  (∀ s targetRow targetCol,
     let s' := onCellTapped s targetRow targetCol in
     grid s' = grid s
     ∨ ∃ target,
         grid_at (grid s) targetRow targetCol = Ok target
         ∧ used target = false
         ∧ grid_at (grid s') targetRow targetCol
           = Ok {| value := value target; used := true; id := id target |}
         ∧ (∀ r c, ¬ (r = targetRow ∧ c = targetCol) →
                   grid_at (grid s') r c = grid_at (grid s) r c)
         ∧ length <$> grid s' = length <$> grid s
         ∧ usedCells (grid s') = S (usedCells (grid s)))
  ∧ (∀ s taps r c cell,
       grid_at (grid s) r c = Ok cell →
       ∃ cell', grid_at (grid (play s taps)) r c = Ok cell'
                ∧ value cell' = value cell ∧ id cell' = id cell
                ∧ (used cell = true → used cell' = true))
  ∧ (∀ s taps,
       (usedCells (grid (play s taps)) <= usedCells (grid s) + length taps)%nat).
Proof.
  split_and!.
  - intros s targetRow targetCol s'. subst s'.
    destruct (grid_after_tap s targetRow targetCol)
      as [Hsame | (target & Hat & Hu & ->)]; [by left|].
    right. exists target. split; [done|]. split; [done|]. split.
    { by apply grid_at_mark_used_eq. }
    split.
    { intros r c Hne. apply grid_at_Ok in Hat as (? & ? & _).
      by apply grid_at_mark_used_ne. }
    split; [apply mark_used_lengths|].
    by apply (usedCells_mark_used _ _ _ target).
  - intros s taps r c. revert s.
    induction taps as [|[tr tc] taps IH]; intros s cell Hcell.
    + exists cell. by split.
    + destruct (cell_kept_onCellTapped s tr tc r c cell Hcell)
        as (cell1 & Hcell1 & Hv1 & Hi1 & Hu1).
      destruct (IH _ _ Hcell1) as (cell' & Hcell' & Hv & Hi & Hu).
      exists cell'. simpl. split; [done|]. split; [congruence|].
      split; [congruence | auto].
  - apply usedCells_play.
Qed.

Lemma cells_kept_witness :
  ∃ cell',
    grid_at (grid (play (play sample_state [(1, 1)]) [(1, 2); (0, 3); (1, 1)])) 1 1
    = Ok cell'
    ∧ value cell' = 6%Q ∧ id cell' = "1-1-5" ∧ used cell' = true.
Proof.
  destruct cells_kept as (_ & Hkept & _).
  destruct (Hkept (play sample_state [(1, 1)]) [(1, 2); (0, 3); (1, 1)] 1 1
              {| value := 6%Q; used := true; id := "1-1-5" |} eq_refl)
    as (cell' & Hcell' & Hv & Hi & Hu).
  exists cell'. split; [exact Hcell'|]. split; [exact Hv|].
  split; [exact Hi | exact (Hu eq_refl)].
Defined.

(** ** Counting used and unused cells *)

Lemma filter_count_cons {A} (f : A → bool) (x : A) (l : list A) :
  length (List.filter f (x :: l)) = (Nat.b2n (f x) + length (List.filter f l))%nat.
Proof. simpl. by destruct (f x). Qed.

Lemma used_unused_count (cells : list Cell) :
  (length (List.filter used cells)
   + length (List.filter (λ c, negb (used c)) cells))%nat
  = length cells.
Proof.
  induction cells as [|x cells IH]; [reflexivity|].
  simpl. destruct (used x); simpl; lia.
Qed.

Lemma row_of_four (cells : list Cell) :
  length cells = Z.to_nat GRID_SIZE → ∃ a b c d, cells = [a; b; c; d].
Proof.
  destruct cells as [|a [|b [|c [|d [|e cells]]]]]; try discriminate.
  intros _. by exists a, b, c, d.
Qed.

Lemma grid_of_four_rows (g : Grid) :
  grid_shape g →
  ∃ row0 row1 row2 row3,
    g = [row0; row1; row2; row3]
    ∧ length row0 = 4%nat ∧ length row1 = 4%nat
    ∧ length row2 = 4%nat ∧ length row3 = 4%nat.
Proof.
  intros [Hlen Hrows].
  destruct g as [|row0 [|row1 [|row2 [|row3 [|row4 g]]]]]; try discriminate.
  exists row0, row1, row2, row3.
  apply Forall_cons in Hrows as [? Hrows]. apply Forall_cons in Hrows as [? Hrows].
  apply Forall_cons in Hrows as [? Hrows]. apply Forall_cons in Hrows as [? Hrows].
  done.
Qed.

Lemma grid_shape_cells (g : Grid) :
  grid_shape g → length (concat g) = 16%nat.
Proof.
  intros (row0 & row1 & row2 & row3 & -> & H0 & H1 & H2 & H3)%grid_of_four_rows.
  simpl. rewrite !length_app, H0, H1, H2, H3. reflexivity.
Qed.

(** X4.  In every state of the component the number of cells still
    available is 16 less the move count, and the move count is between 0
    and 16: a game has at most 16 accepted presses. *)
Theorem available_cells_and_moves (s : State) :
  reachable s →
  getAvailableCells s = GRID_SIZE * GRID_SIZE - moves s
  ∧ 0 <= moves s <= GRID_SIZE * GRID_SIZE.
Proof.
  intros Hinv%reachable_invariant.
  pose proof (used_unused_count (concat (grid s))) as Hsum.
  rewrite (grid_shape_cells _ (inv_shape s Hinv)) in Hsum.
  unfold getAvailableCells, availableCells.
  rewrite (inv_moves s Hinv). unfold usedCells, GRID_SIZE. lia.
Qed.

Lemma available_cells_and_moves_witness :
  getAvailableCells (run sample_state [CellTapped 2 2; CellTapped 2 3; CellTapped 9 9])
  = GRID_SIZE * GRID_SIZE
    - moves (run sample_state [CellTapped 2 2; CellTapped 2 3; CellTapped 9 9]).
Proof.
  apply available_cells_and_moves. eexists sample_random, _. reflexivity.
Defined.

(** ** Selection, move count and score *)

Lemma scoring_onCellTapped (s : State) (targetRow targetCol : Z) :
  0 <= moves s →
  (currentValue s = None ↔ moves s = 0)
  ∧ (moves s <= 1 → score s = 0%Q)
  ∧ (∀ x, 2 <= moves s → currentValue s = Some x → (x <= score s)%Q) →
  let s' := onCellTapped s targetRow targetCol in
  (currentValue s' = None ↔ moves s' = 0)
  ∧ (moves s' <= 1 → score s' = 0%Q)
  ∧ (∀ x, 2 <= moves s' → currentValue s' = Some x → (x <= score s')%Q).
Proof.
  intros Hmoves (Hnone & Hfirst & Hmax) s'.
  assert (let s1 := commit s (handleCellPress s targetRow targetCol) in
          (currentValue s1 = None ↔ moves s1 = 0)
          ∧ (moves s1 <= 1 → score s1 = 0%Q)
          ∧ (∀ x, 2 <= moves s1 → currentValue s1 = Some x → (x <= score s1)%Q))
    as Hpress.
  { destruct (handleCellPress s targetRow targetCol) as [s1|] eqn:E; simpl; [|done].
    apply handleCellPress_inv in E as [-> | Hmove]; [done|].
    destruct Hmove as (target & result & _ & _ & _ & _ & Hcur & _ & Hm & _ & Hscore).
    rewrite Hcur, Hm.
    destruct Hscore as [(Hnocur & _ & ->) | ([current Hsome] & _ & ->)].
    - apply Hnone in Hnocur. split_and!; [split; [done|lia] | intros; apply Hfirst; lia | intros; lia].
    - assert (moves s ≠ 0) by (intros ?%Hnone; congruence).
      split_and!; [split; [done|lia] | intros; lia |].
      intros x _ [= <-].
      destruct (Qgt_bool result (score s)) eqn:Hgt; [apply Qle_refl|].
      apply Qnot_lt_le. intros Hlt%Qgt_bool_iff. congruence. }
  subst s'. unfold onCellTapped.
  set (s1 := commit s (handleCellPress s targetRow targetCol)) in *.
  destruct (gameOverEffect s1) as [s2|] eqn:E; simpl; [|exact Hpress].
  apply gameOverEffect_fields in E as (_ & -> & _ & -> & ->). exact Hpress.
Qed.

Lemma reachable_scoring (s : State) :
  reachable s →
  (currentValue s = None ↔ moves s = 0)
  ∧ (moves s <= 1 → score s = 0%Q)
  ∧ (∀ x, 2 <= moves s → currentValue s = Some x → (x <= score s)%Q).
Proof.
  intros (random & events & ->).
  assert (invariant (initialState random)) as Hinv by apply invariant_initial.
  assert ((currentValue (initialState random) = None ↔ moves (initialState random) = 0)
          ∧ (moves (initialState random) <= 1 → score (initialState random) = 0%Q)
          ∧ (∀ x, 2 <= moves (initialState random) →
                  currentValue (initialState random) = Some x →
                  (x <= score (initialState random))%Q)) as Hinit.
  { simpl. split_and!; [done | done | intros; lia]. }
  revert Hinv Hinit. generalize (initialState random) as s.
  induction events as [|e events IH]; intros s Hinv Hs; [exact Hs|].
  simpl. apply IH; destruct e as [targetRow targetCol | random']; simpl.
  - by apply invariant_onCellTapped.
  - apply invariant_initial.
  - apply scoring_onCellTapped; [|exact Hs].
    rewrite (inv_moves s Hinv). lia.
  - split_and!; [done | done | intros; lia].
Qed.

(** X5.  In every state of the component: there is a running value
    exactly when at least one press was accepted; the first selection
    does not score, the score is still 0 after it; and from the second
    accepted press on the score is at least the running value. *)
Theorem selection_moves_score (s : State) :
  reachable s →
  (currentValue s = None ↔ moves s = 0)
  ∧ (moves s <= 1 → score s = 0%Q)
  ∧ (∀ x, 2 <= moves s → currentValue s = Some x → (x <= score s)%Q).
Proof. apply reachable_scoring. Qed.

Lemma selection_moves_score_witness :
  score (run sample_state [CellTapped 3 3]) = 0%Q
  ∧ (currentValue (run sample_state [CellTapped 3 3]) = None
     ↔ moves (run sample_state [CellTapped 3 3]) = 0).
Proof.
  destruct (selection_moves_score (run sample_state [CellTapped 3 3]))
    as (Hnone & Hfirst & _).
  - eexists sample_random, _. reflexivity.
  - split; [apply Hfirst; vm_compute; discriminate | exact Hnone].
Defined.

(** ** The list of available moves *)

Lemma getDirection_neighbour (row col r c : Z) :
  Z.abs (r - row) <= 1 → Z.abs (c - col) <= 1 → ¬ (r = row ∧ c = col) →
  ∃ operation, getDirection row col r c = Some operation.
Proof.
  intros Hr Hc Hne. unfold getDirection.
  assert (¬ (r - row = 0 ∧ c - col = 0)) as Hne' by lia. clear Hne.
  revert Hr Hc Hne'. generalize (r - row) (c - col); intros dr dc Hr Hc Hne.
  destruct (near_cases dr Hr) as [-> | [-> | ->]],
    (near_cases dc Hc) as [-> | [-> | ->]]; simpl; eauto.
  exfalso. by apply Hne.
Qed.

Lemma getDirection_Some_adjacent (row col r c : Z) (operation : Operation) :
  getDirection row col r c = Some operation →
  Z.abs (r - row) <= 1 ∧ Z.abs (c - col) <= 1 ∧ ¬ (r = row ∧ c = col).
Proof.
  unfold getDirection.
  destruct (Z.ltb_spec 1 (Z.abs (r - row))); [discriminate|].
  destruct (Z.ltb_spec 1 (Z.abs (c - col))); [discriminate|]. simpl.
  destruct (Z.eqb_spec (r - row) 0), (Z.eqb_spec (c - col) 0); simpl;
    try discriminate; intros _; lia.
Qed.

Lemma scan_hit_dec (g : Grid) (row col r c : Z) (cell : Cell) :
  ((0 <=? r) && (r <? GRID_SIZE) && (0 <=? c) && (c <? GRID_SIZE)) = true →
  grid_at g r c = Ok cell →
  negb (used cell) && negb ((r =? row) && (c =? col)) = true
  ↔ scan_hit g row col r c.
Proof.
  intros Hb Hcell.
  apply andb_prop in Hb as [[[?%Z.leb_le ?%Z.ltb_lt]%andb_prop
    ?%Z.leb_le]%andb_prop ?%Z.ltb_lt].
  unfold scan_hit, in_bounds. rewrite andb_true_iff, !negb_true_iff. split.
  - intros [Hu Hne]. split_and!; [lia.. | | by exists cell].
    intros [-> ->]. by rewrite !Z.eqb_refl in Hne.
  - intros (_ & Hne & cell' & Hcell' & Hu). rewrite Hcell in Hcell'.
    injection Hcell' as <-. split; [done|].
    apply andb_false_iff.
    destruct (Z.eqb_spec r row), (Z.eqb_spec c col); tauto.
Qed.

Lemma scan_hit_in_range (g : Grid) (row col r c : Z) :
  scan_hit g row col r c →
  ((0 <=? r) && (r <? GRID_SIZE) && (0 <=? c) && (c <? GRID_SIZE)) = true.
Proof.
  intros ([[? ?] [? ?]] & _).
  rewrite !andb_true_iff, !Z.leb_le, !Z.ltb_lt. done.
Qed.

Lemma movesCols_spec (g : Grid) (row col r : Z) (cs : list Z) (acc : list Move.t) :
  grid_shape g →
  ∃ added,
    movesCols g row col r cs acc = Ok (acc ++ added)
    ∧ ∀ m, m ∈ added ↔
           Move.row m = r ∧ Move.col m ∈ cs
           ∧ scan_hit g row col r (Move.col m)
           ∧ getDirection row col r (Move.col m) = Some (Move.operation m).
Proof.
  intros Hshape. revert acc.
  induction cs as [|c cs IH]; intros acc; simpl.
  { exists []. rewrite app_nil_r. split; [done|]. intros m.
    rewrite elem_of_nil. split; [done|]. intros (_ & []%elem_of_nil & _). }
  assert (∀ added : list Move.t,
            ¬ (scan_hit g row col r c ∧ is_Some (getDirection row col r c)) →
            (∀ m, m ∈ added ↔
                  Move.row m = r ∧ Move.col m ∈ cs
                  ∧ scan_hit g row col r (Move.col m)
                  ∧ getDirection row col r (Move.col m) = Some (Move.operation m)) →
            ∀ m, m ∈ added ↔
                 Move.row m = r ∧ Move.col m ∈ c :: cs
                 ∧ scan_hit g row col r (Move.col m)
                 ∧ getDirection row col r (Move.col m) = Some (Move.operation m))
    as Hskip.
  { intros added Hno Hadded m. rewrite Hadded, elem_of_cons. split; [tauto|].
    intros (Hr & [Hc | Hc] & Hhit & Hdir); [|tauto].
    exfalso. apply Hno. rewrite <- Hc. eauto. }
  destruct ((0 <=? r) && (r <? GRID_SIZE) && (0 <=? c) && (c <? GRID_SIZE)) eqn:Hb.
  - assert (in_bounds r c) as Hin.
    { unfold in_bounds. apply andb_prop in Hb as [[[?%Z.leb_le ?%Z.ltb_lt]%andb_prop
        ?%Z.leb_le]%andb_prop ?%Z.ltb_lt]. lia. }
    destruct (grid_at_in_bounds g r c Hshape Hin) as [cell Hcell].
    rewrite Hcell; simpl.
    pose proof (scan_hit_dec g row col r c cell Hb Hcell) as Hdec.
    destruct (negb (used cell) && negb ((r =? row) && (c =? col))).
    + destruct (getDirection row col r c) as [operation|] eqn:Hdir.
      * destruct (IH (acc ++ [Move.mk r c operation])) as (added & -> & Hadded).
        exists (Move.mk r c operation :: added). split.
        { by rewrite <- app_assoc. }
        intros m. rewrite !elem_of_cons, Hadded. split.
        -- intros [-> | ?]; [simpl|tauto]. split_and!; [done | by left | | done].
           by apply Hdec.
        -- intros (Hr & [Hc | Hc] & Hhit & Hm); [left | right; done].
           destruct m as [mr mc mo]; simpl in *. subst mr mc. congruence.
      * destruct (IH acc) as (added & -> & Hadded). exists added. split; [done|].
        apply Hskip; [|done]. intros [_ [? ?]]. done.
    + destruct (IH acc) as (added & -> & Hadded). exists added. split; [done|].
      apply Hskip; [|done]. intros [Hhit _]. apply Hdec in Hhit. done.
  - destruct (IH acc) as (added & -> & Hadded). exists added. split; [done|].
    apply Hskip; [|done]. intros [Hhit%scan_hit_in_range _]. congruence.
Qed.

Lemma movesRows_spec (g : Grid) (row col : Z) (rs : list Z) (acc : list Move.t) :
  grid_shape g →
  ∃ added,
    movesRows g row col rs acc = Ok (acc ++ added)
    ∧ ∀ m, m ∈ added ↔
           Move.row m ∈ rs ∧ Move.col m ∈ [col - 1; col; col + 1]
           ∧ scan_hit g row col (Move.row m) (Move.col m)
           ∧ getDirection row col (Move.row m) (Move.col m)
             = Some (Move.operation m).
Proof.
  intros Hshape. revert acc.
  induction rs as [|r rs IH]; intros acc; cbn [movesRows].
  { exists []. rewrite app_nil_r. split; [done|]. intros m.
    rewrite elem_of_nil. split; [done|]. intros ([]%elem_of_nil & _). }
  destruct (movesCols_spec g row col r [col - 1; col; col + 1] acc Hshape)
    as (here & -> & Hhere).
  cbn [rbind].
  destruct (IH (acc ++ here)) as (rest & -> & Hrest).
  exists (here ++ rest). split; [by rewrite app_assoc|].
  intros m. rewrite elem_of_app, Hhere, Hrest. split.
  - intros [(<- & ? & ? & ?) | (? & ? & ? & ?)].
    + split; [by left | done].
    + split; [by right | done].
  - intros ([<- | ?]%elem_of_cons & ? & ? & ?); [by left | by right].
Qed.

Lemma getAvailableMoves_legal (s : State) (row col : Z) :
  grid_shape (grid s) →
  selectedCell s = Some (mkCoord row col) →
  ∃ available,
    getAvailableMoves s = Ok available
    ∧ ∀ m, m ∈ available ↔ legal_move (grid s) row col m.
Proof.
  intros Hshape Hsel. unfold getAvailableMoves. rewrite Hsel.
  destruct (movesRows_spec (grid s) row col [row - 1; row; row + 1] [] Hshape)
    as (available & -> & Havailable).
  exists available. split; [done|]. intros m. rewrite Havailable.
  unfold legal_move, unused_neighbour, scan_hit. rewrite !window_elem. tauto.
Qed.

Lemma grid_at_In (g : Grid) (r c : Z) (cell : Cell) :
  grid_at g r c = Ok cell → In cell (concat g).
Proof.
  intros (_ & _ & cells & Hcells & Hcell)%grid_at_Ok.
  apply in_concat. exists cells.
  split; apply list_elem_of_In; by eapply list_elem_of_lookup_2.
Qed.

Lemma all_used_no_unused_neighbour (g : Grid) (row col r c : Z) :
  all_used g → ¬ unused_neighbour g row col r c.
Proof.
  intros Hall (_ & _ & _ & _ & cell & Hcell%grid_at_In & Hu).
  unfold all_used in Hall. rewrite Forall_forall in Hall.
  apply list_elem_of_In in Hcell. specialize (Hall cell Hcell). congruence.
Qed.

Lemma unused_neighbour_not_over (s : State) (row col r c : Z) :
  invariant s →
  selectedCell s = Some (mkCoord row col) →
  unused_neighbour (grid s) row col r c →
  gameOver s = false.
Proof.
  intros Hinv Hsel Hun. destruct (gameOver s) eqn:Hover; [|reflexivity].
  apply (inv_gameOver s Hinv) in Hover as (row' & col' & Hsel' & Hterm).
  rewrite Hsel in Hsel'. injection Hsel' as <- <-.
  destruct Hterm as [Hall | Hno].
  - by apply all_used_no_unused_neighbour with (row := row) (col := col) (r := r) (c := c) in Hall.
  - exfalso. apply Hno. eauto.
Qed.

(** An accepted move, in full. *)
Lemma move_accepted (s : State) (targetRow targetCol selRow selCol : Z)
    (current : Q) (operation : Operation) (target : Cell) :
  currentValue s = Some current →
  selectedCell s = Some (mkCoord selRow selCol) →
  getDirection selRow selCol targetRow targetCol = Some operation →
  grid_at (grid s) targetRow targetCol = Ok target →
  used target = false →
  gameOver s = false →
  handleCellPress s targetRow targetCol
  = Ok (let result := applyOperation operation current (value target) in
        {| grid := mark_used (grid s) targetRow targetCol;
           currentValue := Some result;
           selectedCell := Some (mkCoord targetRow targetCol);
           score := if Qgt_bool result (score s) then result else score s;
           moves := moves s + 1;
           gameOver := false |}).
Proof.
  intros Hcur Hsel Hdir Hat Hu Hover. unfold handleCellPress.
  rewrite Hat; simpl. rewrite Hu, Hover, Hcur, Hsel; simpl. rewrite Hdir.
  unfold performOperation. rewrite Hcur, Hsel, Hat; simpl. rewrite Hu, Hover.
  by destruct operation.
Qed.

(** After a press that returned, the tap shows the handler's state in
    every field but [gameOver]. *)
Lemma onCellTapped_fields (s s1 : State) (targetRow targetCol : Z) :
  handleCellPress s targetRow targetCol = Ok s1 →
  grid (onCellTapped s targetRow targetCol) = grid s1
  ∧ currentValue (onCellTapped s targetRow targetCol) = currentValue s1
  ∧ selectedCell (onCellTapped s targetRow targetCol) = selectedCell s1
  ∧ score (onCellTapped s targetRow targetCol) = score s1
  ∧ moves (onCellTapped s targetRow targetCol) = moves s1.
Proof.
  intros Hpress. unfold onCellTapped. rewrite Hpress. simpl.
  destruct (gameOverEffect s1) as [s2|] eqn:E; simpl; [|done].
  by apply gameOverEffect_fields in E.
Qed.

Lemma isAvailableMove_unused_neighbour (s : State) (row col r c : Z) :
  grid_shape (grid s) →
  selectedCell s = Some (mkCoord row col) →
  ∃ b, isAvailableMove s r c = Ok b
       ∧ (b = true ↔ unused_neighbour (grid s) row col r c).
Proof.
  intros Hshape Hsel. unfold isAvailableMove. rewrite Hsel.
  destruct (getAvailableMoves_legal s row col Hshape Hsel)
    as (available & -> & Havailable). simpl.
  eexists. split; [reflexivity|]. rewrite existsb_exists. split.
  - intros (m & Hm%list_elem_of_In%Havailable & Hrc).
    apply andb_prop in Hrc as [<-%Z.eqb_eq <-%Z.eqb_eq]. apply Hm.
  - intros Hun. pose proof Hun as (Hr & Hc & Hne & _).
    destruct (getDirection_neighbour row col r c Hr Hc Hne) as [operation Hdir].
    exists (Move.mk r c operation). split.
    + apply list_elem_of_In, Havailable. by split.
    + simpl. by rewrite !Z.eqb_refl.
Qed.

Lemma getOperationForCell_direction (s : State) (row col r c : Z) :
  grid_shape (grid s) →
  selectedCell s = Some (mkCoord row col) →
  ∃ shown, getOperationForCell s r c = Ok shown
           ∧ ∀ operation,
               shown = Some operation
               ↔ unused_neighbour (grid s) row col r c
                 ∧ getDirection row col r c = Some operation.
Proof.
  intros Hshape Hsel. unfold getOperationForCell. rewrite Hsel.
  destruct (getAvailableMoves_legal s row col Hshape Hsel)
    as (available & -> & Havailable). simpl.
  eexists. split; [reflexivity|]. intros operation.
  destruct (List.find _ available) as [m|] eqn:Hfind; simpl.
  - apply find_some in Hfind as [Hm%list_elem_of_In%Havailable Hrc].
    apply andb_prop in Hrc as [<-%Z.eqb_eq <-%Z.eqb_eq].
    destruct Hm as [Hun Hdir]. split.
    + intros [= <-]. by split.
    + intros [_ Hdir']. congruence.
  - split; [discriminate|]. intros [Hun Hdir]. exfalso.
    assert (Move.mk r c operation ∈ available) as Hin by (apply Havailable; by split).
    apply list_elem_of_In in Hin.
    eapply find_none in Hfind; [|exact Hin]. simpl in Hfind.
    by rewrite !Z.eqb_refl in Hfind.
Qed.

Example getAvailableMoves_corner :
  getAvailableMoves (play sample_state [(0, 0)])
  = Ok [Move.mk 0 1 add; Move.mk 1 0 subtract; Move.mk 1 1 multiply].
Proof. reflexivity. Qed.

(** X6.  On a 4 by 4 grid [getAvailableMoves] never throws.  Without a
    selection the list is empty; with a selection it holds exactly the
    unused in-bounds neighbours of the selected cell, each with the
    operation of its direction from the selected cell.  The selected
    cell itself and used cells are never listed. *)
Theorem getAvailableMoves_exact (s : State) :
  grid_shape (grid s) →
  ∃ available,
    getAvailableMoves s = Ok available
    ∧ match selectedCell s with
      | None => available = []
      | Some (mkCoord row col) => ∀ m, m ∈ available ↔ legal_move (grid s) row col m
      end.
Proof.
  intros Hshape. destruct (selectedCell s) as [[row col]|] eqn:Hsel.
  - by apply getAvailableMoves_legal.
  - exists []. unfold getAvailableMoves. by rewrite Hsel.
Qed.

Lemma getAvailableMoves_exact_witness :
  ∃ available,
    getAvailableMoves (play sample_state [(1, 1); (1, 2)]) = Ok available
    ∧ ∀ m, m ∈ available
           ↔ legal_move (grid (play sample_state [(1, 1); (1, 2)])) 1 2 m.
Proof.
  apply (getAvailableMoves_exact (play sample_state [(1, 1); (1, 2)])).
  split; [reflexivity | repeat constructor].
Defined.

(** ** Highlighted cells and accepted presses *)

Lemma onCellTapped_rejected (s : State) (targetRow targetCol : Z) :
  invariant s →
  handleCellPress s targetRow targetCol = Ok s
    ∨ handleCellPress s targetRow targetCol = TypeError →
  onCellTapped s targetRow targetCol = s.
Proof.
  intros Hinv [Hpress | Hpress]; unfold onCellTapped; rewrite Hpress; simpl;
    by rewrite gameOverEffect_stable.
Qed.

Lemma legal_press_changes (s : State) (row col r c : Z) :
  invariant s →
  selectedCell s = Some (mkCoord row col) →
  unused_neighbour (grid s) row col r c →
  onCellTapped s r c ≠ s.
Proof.
  intros Hinv Hsel Hun.
  pose proof (unused_neighbour_not_over s row col r c Hinv Hsel Hun) as Hover.
  destruct Hun as (Hr & Hc & Hne & _ & target & Hat & Hu).
  destruct (getDirection_neighbour row col r c Hr Hc Hne) as [operation Hdir].
  destruct (currentValue s) as [current|] eqn:Hcur;
    [|apply (inv_coupled s Hinv) in Hcur; congruence].
  pose proof (move_accepted s r c row col current operation target
                Hcur Hsel Hdir Hat Hu Hover) as Hpress.
  apply onCellTapped_fields in Hpress as (_ & _ & _ & _ & Hmoves).
  simpl in Hmoves. intros Heq. rewrite Heq in Hmoves. lia.
Qed.

Lemma changing_press_is_legal (s : State) (row col r c : Z) :
  invariant s →
  selectedCell s = Some (mkCoord row col) →
  onCellTapped s r c ≠ s →
  unused_neighbour (grid s) row col r c.
Proof.
  intros Hinv Hsel Hchanged.
  destruct (currentValue s) as [current|] eqn:Hcur;
    [|apply (inv_coupled s Hinv) in Hcur; congruence].
  assert (handleCellPress s r c ≠ Ok s ∧ handleCellPress s r c ≠ TypeError)
    as [Hnot_same Hnot_thrown].
  { split; intros Hpress; apply Hchanged, onCellTapped_rejected; auto. }
  unfold handleCellPress in Hnot_same, Hnot_thrown.
  destruct (grid_at (grid s) r c) as [target|] eqn:Hat; [|done]. simpl in *.
  destruct (used target) eqn:Hu; [done|].
  destruct (gameOver s) eqn:Hover; [done|]. simpl in *.
  rewrite Hcur, Hsel in Hnot_same.
  destruct (getDirection row col r c) as [operation|] eqn:Hdir; [|done].
  apply getDirection_Some_adjacent in Hdir as (Hr & Hc & Hne).
  split_and!; [done.. | |by exists target].
  exact (grid_at_Ok_in_bounds _ _ _ _ (inv_shape s Hinv) Hat).
Qed.

(** X7.  In every state of the component with a selection, the cells
    the view highlights as available are exactly the cells a tap acts
    on: [isAvailableMove] never throws, and it returns true for a
    coordinate exactly when a tap there changes the state. *)
Theorem highlighted_iff_accepted (s : State) (r c : Z) :
  reachable s →
  is_Some (selectedCell s) →
  ∃ b, isAvailableMove s r c = Ok b ∧ (b = true ↔ onCellTapped s r c ≠ s).
Proof.
  intros Hinv%reachable_invariant [[row col] Hsel].
  destruct (isAvailableMove_unused_neighbour s row col r c (inv_shape s Hinv) Hsel)
    as (b & Hb & Hiff).
  exists b. split; [done|]. rewrite Hiff. split.
  - by apply legal_press_changes.
  - by apply changing_press_is_legal.
Qed.

Lemma highlighted_iff_accepted_witness :
  ∃ b, isAvailableMove (run sample_state [CellTapped 1 1]) 2 2 = Ok b
       ∧ (b = true ↔ onCellTapped (run sample_state [CellTapped 1 1]) 2 2
                      ≠ run sample_state [CellTapped 1 1]).
Proof.
  apply highlighted_iff_accepted.
  - eexists sample_random, _. reflexivity.
  - eexists. reflexivity.
Defined.

(** X8.  In every state of the component [getOperationForCell] never
    throws; it shows an operation exactly on the highlighted cells; and
    the operation it shows on a cell is the one a tap on that cell
    applies: the running value after the tap is that operation of the
    old running value and the cell's value. *)
Theorem shown_operation_applied (s : State) (r c : Z) :
  reachable s →
  ∃ shown,
    getOperationForCell s r c = Ok shown
    ∧ (is_Some shown ↔ isAvailableMove s r c = Ok true)
    ∧ ∀ operation,
        shown = Some operation →
        ∃ current target,
          currentValue s = Some current
          ∧ grid_at (grid s) r c = Ok target
          ∧ currentValue (onCellTapped s r c)
            = Some (applyOperation operation current (value target)).
Proof.
  intros Hinv%reachable_invariant.
  destruct (selectedCell s) as [[row col]|] eqn:Hsel.
  - destruct (getOperationForCell_direction s row col r c (inv_shape s Hinv) Hsel)
      as (shown & Hshown & Hiff).
    destruct (isAvailableMove_unused_neighbour s row col r c (inv_shape s Hinv) Hsel)
      as (b & Hb & Hbiff).
    exists shown. split; [done|]. split.
    + rewrite Hb. split.
      * intros [operation Hop]. apply Hiff in Hop as [Hun _].
        f_equal. by apply Hbiff.
      * intros [= ->]. pose proof (proj1 Hbiff eq_refl) as Hun.
        pose proof Hun as (Hr & Hc & Hne & _).
        destruct (getDirection_neighbour row col r c Hr Hc Hne) as [operation Hdir].
        exists operation. by apply Hiff.
    + intros operation [Hun Hdir]%Hiff.
      pose proof (unused_neighbour_not_over s row col r c Hinv Hsel Hun) as Hover.
      destruct Hun as (_ & _ & _ & _ & target & Hat & Hu).
      destruct (currentValue s) as [current|] eqn:Hcur;
        [|apply (inv_coupled s Hinv) in Hcur; congruence].
      exists current, target. split_and!; [done..|].
      pose proof (move_accepted s r c row col current operation target
                    Hcur Hsel Hdir Hat Hu Hover) as Hpress.
      by apply onCellTapped_fields in Hpress as (_ & -> & _).
  - exists None. unfold getOperationForCell, isAvailableMove. rewrite Hsel.
    split; [done|]. split; [|done]. split; [by intros [? ?] | done].
Qed.

Lemma shown_operation_applied_witness :
  ∃ shown,
    getOperationForCell (run sample_state [CellTapped 1 1]) 0 2 = Ok shown
    ∧ (is_Some shown ↔ isAvailableMove (run sample_state [CellTapped 1 1]) 0 2
                        = Ok true)
    ∧ ∀ operation,
        shown = Some operation →
        ∃ current target,
          currentValue (run sample_state [CellTapped 1 1]) = Some current
          ∧ grid_at (grid (run sample_state [CellTapped 1 1])) 0 2 = Ok target
          ∧ currentValue (onCellTapped (run sample_state [CellTapped 1 1]) 0 2)
            = Some (applyOperation operation current (value target)).
Proof.
  apply shown_operation_applied. eexists sample_random, _. reflexivity.
Defined.

Example shown_operation_sample :
  getOperationForCell (run sample_state [CellTapped 1 1]) 0 2 = Ok (Some multiply)
  ∧ Qfloor <$> currentValue (onCellTapped (run sample_state [CellTapped 1 1]) 0 2)
    = Some 18.
Proof. split; reflexivity. Qed.

(** ** When a game ends *)

Lemma no_moves_terminal (s : State) (row col : Z) (available : list Move.t) :
  invariant s →
  selectedCell s = Some (mkCoord row col) →
  getAvailableMoves s = Ok available →
  available = [] ↔ terminal (grid s) row col.
Proof.
  intros Hinv Hsel Havailable.
  destruct (getAvailableMoves_legal s row col (inv_shape s Hinv) Hsel)
    as (available' & Heq & Hlegal).
  rewrite Havailable in Heq. injection Heq as <-. split.
  - intros ->. right. intros (r & c & Hun).
    pose proof Hun as (Hr & Hc & Hne & _).
    destruct (getDirection_neighbour row col r c Hr Hc Hne) as [operation Hdir].
    assert (Move.mk r c operation ∈ []) as Hin by (apply Hlegal; by split).
    by apply elem_of_nil in Hin.
  - intros Hterm. destruct available as [|m available]; [reflexivity|].
    exfalso. destruct (proj1 (Hlegal m)) as [Hun _]; [by left|].
    destruct Hterm as [Hall | Hno]; [|by eauto].
    by eapply all_used_no_unused_neighbour.
Qed.

(** X9.  In every state of the component the game is over exactly when
    a cell is selected and the list of available moves is empty: the
    end is declared when, and only when, the view has no move left to
    offer. *)
Theorem game_over_iff_no_moves (s : State) :
  reachable s →
  gameOver s = true ↔ is_Some (selectedCell s) ∧ getAvailableMoves s = Ok [].
Proof.
  intros Hinv%reachable_invariant. rewrite (inv_gameOver s Hinv). split.
  - intros (row & col & Hsel & Hterm). split; [by eexists|].
    destruct (getAvailableMoves_legal s row col (inv_shape s Hinv) Hsel)
      as (available & Havailable & _).
    rewrite Havailable. f_equal.
    by apply (no_moves_terminal s row col available Hinv Hsel Havailable).
  - intros [[[row col] Hsel] Hnone]. exists row, col. split; [done|].
    by apply (no_moves_terminal s row col [] Hinv Hsel Hnone).
Qed.

Lemma game_over_iff_no_moves_witness :
  gameOver (run sample_state [CellTapped 0 1; CellTapped 1 1;
                              CellTapped 1 0; CellTapped 0 0]) = true
  ↔ is_Some (selectedCell (run sample_state [CellTapped 0 1; CellTapped 1 1;
                                             CellTapped 1 0; CellTapped 0 0]))
    ∧ getAvailableMoves (run sample_state [CellTapped 0 1; CellTapped 1 1;
                                           CellTapped 1 0; CellTapped 0 0])
      = Ok [].
Proof.
  apply game_over_iff_no_moves. eexists sample_random, _. reflexivity.
Defined.

Lemma no_used_cells (g : Grid) (r c : Z) (cell : Cell) :
  usedCells g = 0%nat → grid_at g r c = Ok cell → used cell = false.
Proof.
  intros Hzero Hcell%grid_at_In. unfold usedCells in Hzero.
  destruct (used cell) eqn:Hu; [|reflexivity].
  assert (In cell (List.filter used (concat g))) as Hin by (by apply filter_In).
  destruct (List.filter used (concat g)); [destruct Hin | discriminate].
Qed.

(** X10.  The game never gets stuck: in every state of the component
    in which the game is not over there is a cell of the grid on which a
    tap changes the state.  With X2 this makes [gameOver] the exact mark
    of the end of a game. *)
Theorem never_stuck (s : State) :
  reachable s →
  gameOver s = false →
  ∃ r c, in_bounds r c ∧ onCellTapped s r c ≠ s.
Proof.
  intros Hreach Hover.
  pose proof (reachable_invariant s Hreach) as Hinv.
  destruct (selectedCell s) as [[row col]|] eqn:Hsel.
  - destruct (getAvailableMoves_legal s row col (inv_shape s Hinv) Hsel)
      as (available & Havailable & Hlegal).
    destruct available as [|m available].
    + assert (gameOver s = true); [|congruence].
      apply (inv_gameOver s Hinv). exists row, col. split; [done|].
      by apply (no_moves_terminal s row col [] Hinv Hsel Havailable).
    + destruct (proj1 (Hlegal m)) as [Hun _]; [by left|].
      exists (Move.row m), (Move.col m). split.
      * by destruct Hun as (_ & _ & _ & Hin & _).
      * by apply (legal_press_changes s row col).
  - apply (inv_coupled s Hinv) in Hsel as Hcur.
    apply (reachable_scoring s Hreach) in Hcur as Hmoves.
    assert (in_bounds 0 0) as Hin by (unfold in_bounds, GRID_SIZE; lia).
    destruct (grid_at_in_bounds _ _ _ (inv_shape s Hinv) Hin) as [cell Hcell].
    assert (used cell = false) as Hu.
    { apply (no_used_cells (grid s) 0 0); [|done].
      pose proof (inv_moves s Hinv). lia. }
    exists 0, 0. split; [done|].
    assert (∃ s1, handleCellPress s 0 0 = Ok s1 ∧ moves s1 = moves s + 1)
      as (s1 & Hpress & Hs1).
    { unfold handleCellPress. rewrite Hcell; simpl. rewrite Hu, Hover, Hcur; simpl.
      by eexists. }
    apply onCellTapped_fields in Hpress as (_ & _ & _ & _ & Hm).
    intros Heq. rewrite Heq in Hm. lia.
Qed.

Lemma never_stuck_witness :
  ∃ r c, in_bounds r c
         ∧ onCellTapped (run sample_state [CellTapped 0 1; CellTapped 1 1]) r c
           ≠ run sample_state [CellTapped 0 1; CellTapped 1 1].
Proof.
  apply never_stuck; [|reflexivity]. eexists sample_random, _. reflexivity.
Defined.

(** ** The game-over screen *)

Lemma all_used_count (cells : list Cell) :
  length (List.filter used cells) = length cells
  ↔ Forall (λ cell, used cell = true) cells.
Proof.
  rewrite <- no_unused_all_used. pose proof (used_unused_count cells). lia.
Qed.

(** X11.  In every state of the component: [allUsed] of the game-over
    screen is true exactly when every cell is used; when every cell is
    used the game is over; and when the game is over without every cell
    used, the selected cell has no unused neighbour in the grid, as the
    message "No more moves available" says. *)
Theorem game_over_message (s : State) :
  reachable s →
  (allUsed (grid s) = true ↔ all_used (grid s))
  ∧ (all_used (grid s) → gameOver s = true)
  ∧ (gameOver s = true → allUsed (grid s) = false →
     ∃ row col, selectedCell s = Some (mkCoord row col)
                ∧ ¬ ∃ r c, unused_neighbour (grid s) row col r c).
Proof.
  intros Hreach. pose proof (reachable_invariant s Hreach) as Hinv.
  assert (allUsed (grid s) = true ↔ all_used (grid s)) as Hall.
  { unfold allUsed, all_used, usedCells. rewrite <- all_used_count, Z.eqb_eq.
    rewrite (grid_shape_cells _ (inv_shape s Hinv)). unfold GRID_SIZE. lia. }
  split_and!; [exact Hall | |].
  - intros Hused. apply (inv_gameOver s Hinv).
    destruct (selectedCell s) as [[row col]|] eqn:Hsel; [by exists row, col; split; [|left]|].
    exfalso. apply (inv_coupled s Hinv), (reachable_scoring s Hreach) in Hsel.
    apply Hall in Hused. unfold allUsed in Hused. apply Z.eqb_eq in Hused.
    pose proof (inv_moves s Hinv). unfold GRID_SIZE in *. lia.
  - intros (row & col & Hsel & Hterm)%(inv_gameOver s Hinv) Hnot.
    exists row, col. split; [done|]. destruct Hterm as [Hused | Hno]; [|done].
    apply Hall in Hused. congruence.
Qed.

Lemma game_over_message_witness :
  ∃ row col,
    selectedCell (run sample_state [CellTapped 0 1; CellTapped 1 1;
                                    CellTapped 1 0; CellTapped 0 0])
    = Some (mkCoord row col)
    ∧ ¬ ∃ r c, unused_neighbour
                 (grid (run sample_state [CellTapped 0 1; CellTapped 1 1;
                                          CellTapped 1 0; CellTapped 0 0]))
                 row col r c.
Proof.
  apply game_over_message; [|reflexivity|reflexivity].
  eexists sample_random, _. reflexivity.
Defined.

(** ** The shortest game *)

Lemma neighbour_used (g : Grid) (row col r c : Z) :
  grid_shape g →
  (¬ ∃ r c, unused_neighbour g row col r c) →
  in_bounds r c → Z.abs (r - row) <= 1 → Z.abs (c - col) <= 1 →
  ¬ (r = row ∧ c = col) →
  ∃ cell, grid_at g r c = Ok cell ∧ used cell = true.
Proof.
  intros Hshape Hno Hin Hr Hc Hne.
  destruct (grid_at_in_bounds g r c Hshape Hin) as [cell Hcell].
  exists cell. split; [done|]. destruct (used cell) eqn:Hu; [reflexivity|].
  exfalso. apply Hno. exists r, c. split_and!; [done..|]. by exists cell.
Qed.

Ltac cell_is_used H :=
  let cell := fresh "cell" in
  let Hcell := fresh "Hcell" in
  let Hused := fresh "Hused" in
  destruct H as (cell & Hcell & Hused);
  cbv in Hcell; injection Hcell as <-.

Lemma block_used_count (g : Grid) (row col : Z) :
  grid_shape g →
  in_bounds row col →
  (∀ r c, in_bounds r c → Z.abs (r - row) <= 1 → Z.abs (c - col) <= 1 →
          ∃ cell, grid_at g r c = Ok cell ∧ used cell = true) →
  (4 <= usedCells g)%nat.
Proof.
  intros Hshape [Hrow Hcol] Hused.
  pose proof Hshape as (row0 & row1 & row2 & row3 & -> & H0 & H1 & H2 & H3)
    %grid_of_four_rows.
  apply row_of_four in H0 as (c00 & c01 & c02 & c03 & ->).
  apply row_of_four in H1 as (c10 & c11 & c12 & c13 & ->).
  apply row_of_four in H2 as (c20 & c21 & c22 & c23 & ->).
  apply row_of_four in H3 as (c30 & c31 & c32 & c33 & ->).
  unfold usedCells. simpl concat. rewrite !filter_count_cons. simpl length.
  set (r' := if row =? 0 then 1 else row - 1).
  set (c' := if col =? 0 then 1 else col - 1).
  assert (in_bounds row col ∧ in_bounds r' col ∧ in_bounds row c' ∧ in_bounds r' c'
          ∧ Z.abs (row - row) <= 1 ∧ Z.abs (r' - row) <= 1
          ∧ Z.abs (col - col) <= 1 ∧ Z.abs (c' - col) <= 1)
    as (Ha & Hb & Hc & Hd & Hrr & Hr' & Hcc & Hc').
  { subst r' c'. unfold in_bounds, GRID_SIZE in *.
    destruct (Z.eqb_spec row 0), (Z.eqb_spec col 0); lia. }
  pose proof (Hused row col Ha Hrr Hcc) as Use0.
  pose proof (Hused r' col Hb Hr' Hcc) as Use1.
  pose proof (Hused row c' Hc Hrr Hc') as Use2.
  pose proof (Hused r' c' Hd Hr' Hc') as Use3.
  clear Hused Ha Hb Hc Hd Hrr Hr' Hcc Hc' Hshape.
  unfold GRID_SIZE in *.
  assert (row = 0 ∨ row = 1 ∨ row = 2 ∨ row = 3) as Hrow' by lia.
  assert (col = 0 ∨ col = 1 ∨ col = 2 ∨ col = 3) as Hcol' by lia.
  destruct Hrow' as [-> | [-> | [-> | ->]]], Hcol' as [-> | [-> | [-> | ->]]];
    subst r' c'; simpl in Use1, Use2, Use3;
    cell_is_used Use0; cell_is_used Use1; cell_is_used Use2; cell_is_used Use3;
    repeat match goal with H : used _ = true |- _ => rewrite H; clear H end;
    simpl; lia.
Qed.

(** X12.  No game ends before the fourth accepted press: in every state
    of the component in which the game is over the move count is at
    least 4 (a selected corner with its three neighbours used). *)
Theorem shortest_game (s : State) :
  reachable s → gameOver s = true → 4 <= moves s.
Proof.
  intros Hinv%reachable_invariant Hover.
  apply (inv_gameOver s Hinv) in Hover as (row & col & Hsel & Hterm).
  destruct (inv_selected s Hinv row col Hsel) as (Hin & Hself).
  rewrite (inv_moves s Hinv).
  assert (4 <= usedCells (grid s))%nat; [|lia].
  destruct Hterm as [Hall | Hno].
  - apply all_used_count in Hall.
    unfold usedCells. rewrite Hall, (grid_shape_cells _ (inv_shape s Hinv)). lia.
  - apply (block_used_count (grid s) row col (inv_shape s Hinv) Hin).
    intros r c Hrc Hr Hc.
    destruct (decide (r = row ∧ c = col)) as [[-> ->] | Hne]; [exact Hself|].
    by apply (neighbour_used (grid s) row col r c (inv_shape s Hinv)).
Qed.

Lemma shortest_game_witness :
  4 <= moves (run sample_state [CellTapped 0 1; CellTapped 1 1;
                                CellTapped 1 0; CellTapped 0 0]).
Proof.
  apply shortest_game; [|reflexivity]. eexists sample_random, _. reflexivity.
Defined.

(** ** The first tap of a game *)

(** X13.  After a reset, whatever the state before, a tap on any cell
    of the grid is a first selection: the running value is the value of
    that cell, the cell is the selection and the only used cell, the
    move count is 1, the score is still 0 and the game is not over. *)
Theorem first_tap_after_reset (random : nat → Q) (s : State) (r c : Z) :
  in_bounds r c →
  let s' := onCellTapped (resetGame random s) r c in
  currentValue s' = Some (value (cellAt random r c))
  ∧ selectedCell s' = Some (mkCoord r c)
  ∧ usedCells (grid s') = 1%nat
  ∧ moves s' = 1
  ∧ score s' = 0%Q
  ∧ gameOver s' = false.
Proof.
  intros [Hr Hc]. unfold GRID_SIZE in *.
  assert (r = 0 ∨ r = 1 ∨ r = 2 ∨ r = 3) as Hr' by lia.
  assert (c = 0 ∨ c = 1 ∨ c = 2 ∨ c = 3) as Hc' by lia.
  destruct Hr' as [-> | [-> | [-> | ->]]], Hc' as [-> | [-> | [-> | ->]]];
    repeat split.
Qed.

Lemma first_tap_after_reset_witness :
  currentValue (onCellTapped
                  (resetGame sample_random
                     (play sample_state [(0, 1); (1, 1); (1, 0); (0, 0)])) 2 0)
  = Some 9%Q.
Proof.
  apply (first_tap_after_reset sample_random
           (play sample_state [(0, 1); (1, 1); (1, 0); (0, 0)]) 2 0).
  unfold in_bounds, GRID_SIZE. lia.
Defined.

(** ** The styles of a drawn cell *)

(** X15.  In every state of the component, for every cell the view
    draws: a cell highlighted as available is neither used nor the
    selected cell, and the selected cell is a used cell.  So no cell is
    drawn both as used and as available. *)
Theorem cell_styles_consistent (s : State) (rowIndex colIndex : Z) :
  reachable s →
  (rowIndex, colIndex) ∈ pressables (grid s) →
  ∃ cell available,
    grid_at (grid s) rowIndex colIndex = Ok cell
    ∧ isAvailableMove s rowIndex colIndex = Ok available
    ∧ (available = true →
       used cell = false ∧ isSelected s rowIndex colIndex = false)
    ∧ (isSelected s rowIndex colIndex = true → used cell = true).
Proof.
  intros Hinv%reachable_invariant [cell Hcell]%pressables_in_grid.
  exists cell. unfold isSelected.
  destruct (selectedCell s) as [[row col]|] eqn:Hsel.
  - destruct (isAvailableMove_unused_neighbour s row col rowIndex colIndex
                (inv_shape s Hinv) Hsel) as (b & Hb & Hiff).
    exists b. split_and!; [done | done | |].
    + intros (_ & _ & Hne & _ & cell' & Hcell' & Hu)%Hiff.
      rewrite Hcell in Hcell'. injection Hcell' as <-. split; [done|].
      apply andb_false_iff.
      destruct (Z.eqb_spec row rowIndex) as [-> | ?],
        (Z.eqb_spec col colIndex) as [-> | ?]; auto.
      exfalso. by apply Hne.
    + intros [<-%Z.eqb_eq <-%Z.eqb_eq]%andb_prop.
      destruct (inv_selected s Hinv row col Hsel) as (_ & cell' & Hcell' & Hu).
      congruence.
  - exists false. unfold isAvailableMove. rewrite Hsel. by split_and!.
Qed.

Lemma cell_styles_consistent_witness :
  ∃ cell available,
    grid_at (grid (run sample_state [CellTapped 1 1])) 1 2 = Ok cell
    ∧ isAvailableMove (run sample_state [CellTapped 1 1]) 1 2 = Ok available
    ∧ (available = true →
       used cell = false
       ∧ isSelected (run sample_state [CellTapped 1 1]) 1 2 = false)
    ∧ (isSelected (run sample_state [CellTapped 1 1]) 1 2 = true
       → used cell = true).
Proof.
  apply cell_styles_consistent.
  - eexists sample_random, _. reflexivity.
  - apply (bool_decide_unpack _). vm_compute. exact I.
Defined.

(** ** The effect settles in one run *)

(** X16.  Whatever the state, when the game-over effect returns, running
    it again on its result changes nothing: the render that
    [setGameOver(true)] causes does not cause another update. *)
Theorem gameOverEffect_settles (s s' : State) :
  gameOverEffect s = Ok s' → gameOverEffect s' = Ok s'.
Proof.
  intros Hrun. pose proof Hrun as Hsame. unfold gameOverEffect in Hrun.
  destruct (selectedCell s) as [[row col]|]; [|by injection Hrun as <-].
  destruct (currentValue s); [|by injection Hrun as <-].
  destruct (gameOver s); [by injection Hrun as <-|].
  destruct (hasAvailableMoves (grid s) row col) as [found|]; [simpl in Hrun|done].
  destruct ((availableCells (grid s) =? 0) || negb found).
  - injection Hrun as <-. by apply gameOverEffect_over.
  - by injection Hrun as <-.
Qed.

Lemma gameOverEffect_settles_witness :
  gameOverEffect (commit sample_state (handleCellPress sample_state 0 0))
  = Ok (commit sample_state (handleCellPress sample_state 0 0)).
Proof.
  apply (gameOverEffect_settles
           (commit sample_state (handleCellPress sample_state 0 0))).
  reflexivity.
Defined.
